(** * sanitize: in-place sanitization of struct fields driven by struct tags

    A shallow embedding of the Go package [sanitize] (files [sanitize.go],
    [int32.go] and the two variants of the accessor file that defines
    [GetUnexportedField]) together with the properties stated about it.

    The package works through Go's [reflect] package, so the development
    starts with a model of the part of [reflect] that the package uses:

    - the memory reachable from the argument of [Sanitize] is a tree of
      [data]; a [reflect.Value] is a typed view of one node of that tree,
      designated by the [path] from the root, together with the two flags
      that decide what [reflect] allows on it (addressable, read-only);
    - Go code that reads or writes through a [reflect.Value] is a
      computation in the monad [M]: it threads the tree, and it either
      returns or stops with a Go panic;
    - a pointer owns its pointee (the tree has no sharing and no cycles);
      the package itself never creates sharing.

    Functions of the package that are not part of the four files (the tag
    parser [fieldTags], [parseInt32], [sanitizeSliceField] and the field
    sanitizers of the other primitive families) are the fields of the
    class [Externals]. *)

From Stdlib Require Import ZArith Lia Ascii.
From stdpp Require Import base option list strings gmap.

Set Warnings "-register-all".

(** ** Kinds, types and struct tags *)

Module reflect.

Inductive Kind :=
| Invalid | Bool
| Int | Int8 | Int16 | Int32 | Int64
| Uint | Uint8 | Uint16 | Uint32 | Uint64 | Uintptr
| Float32 | Float64 | Complex64 | Complex128
| Array | Chan | Func | Interface | Map | Ptr | Slice | String | Struct
| UnsafePointer.

#[global] Instance Kind_eq_dec : EqDecision Kind.
Proof. solve_decision. Defined.

(** A struct tag in its conventional form, a sequence of [key:"value"]
    pairs. *)
Definition StructTag : Type := list (string * string).

Definition StructTag_Get (tag : StructTag) (key : string) : string :=
  match list_find (λ kv : string * string, kv.1 = key) tag with
  | Some (_, (_, v)) => v
  | None => EmptyString
  end.

Definition isSignedInt (k : Kind) : bool :=
  match k with Int | Int8 | Int16 | Int32 | Int64 => true | _ => false end.

Definition isUnsignedInt (k : Kind) : bool :=
  match k with
  | Uint | Uint8 | Uint16 | Uint32 | Uint64 | Uintptr => true
  | _ => false
  end.

(** Width in bits of the signed integer kinds ([int] is 64 bits wide). *)
Definition intBits (k : Kind) : Z :=
  match k with Int8 => 8 | Int16 => 16 | Int32 => 32 | _ => 64 end.

End reflect.

(** Two's complement wrap-around of a conversion to a signed integer type
    of [bits] bits. *)
Definition wrapInt (bits n : Z) : Z :=
  ((n + 2 ^ (bits - 1)) mod 2 ^ bits - 2 ^ (bits - 1))%Z.

Definition int32 (n : Z) : Z := wrapInt 32 n.
Definition int64 (n : Z) : Z := wrapInt 64 n.

Definition inInt32 (n : Z) : Prop := (- 2 ^ 31 <= n < 2 ^ 31)%Z.

Record StructField (T : Type) := mkStructField {
  sfName : string;
  sfType : T;
  sfTag : reflect.StructTag;
  sfExported : bool
}.
Arguments mkStructField {T}.
Arguments sfName {T}.
Arguments sfType {T}.
Arguments sfTag {T}.
Arguments sfExported {T}.

(** Run-time types.  [TPrim str k] is a type without components that the
    package looks into: a predeclared type ([TPrim "int32" Int32]), a
    defined type over one ([TPrim "main.Age" Int32]), or an array,
    channel or function type; [str] is what [Type.String] prints.
    [TNamed str u] is a defined type whose underlying type [u] is a
    pointer, slice or map type. *)
Inductive rtype :=
| TPrim (str : string) (k : reflect.Kind)
| TNamed (str : string) (under : rtype)
| TPtr (elem : rtype)
| TSlice (elem : rtype)
| TMap (key elem : rtype)
| TInterface (str : string)
| TStruct (str : string) (fields : list (StructField rtype)).

Module rtype.

Fixpoint String (t : rtype) : string :=
  match t with
  | TPrim str _ => str
  | TNamed str _ => str
  | TPtr e => "*" +:+ String e
  | TSlice e => "[]" +:+ String e
  | TMap k e => "map[" +:+ String k +:+ "]" +:+ String e
  | TInterface str => str
  | TStruct str _ => str
  end.

Fixpoint Kind (t : rtype) : reflect.Kind :=
  match t with
  | TPrim _ k => k
  | TNamed _ u => Kind u
  | TPtr _ => reflect.Ptr
  | TSlice _ => reflect.Slice
  | TMap _ _ => reflect.Map
  | TInterface _ => reflect.Interface
  | TStruct _ _ => reflect.Struct
  end.

Fixpoint underlying (t : rtype) : rtype :=
  match t with TNamed _ u => underlying u | _ => t end.

Definition fields (t : rtype) : list (StructField rtype) :=
  match underlying t with TStruct _ fs => fs | _ => [] end.

Definition NumField (t : rtype) : nat := length (fields t).

Definition Field (t : rtype) (i : nat) : option (StructField rtype) :=
  fields t !! i.

(** Element type of a pointer, slice or map type. *)
Definition Elem (t : rtype) : option rtype :=
  match underlying t with
  | TPtr e | TSlice e | TMap _ e => Some e
  | _ => None
  end.

End rtype.

Definition tInt32 : rtype := TPrim "int32" reflect.Int32.

(** ** Memory: a tree of data, and paths into it *)

Inductive data :=
| DInt (n : Z)
| DBool (b : bool)
| DString (s : string)
| DOther
| DPtr (pointee : option data)
| DSlice (elems : list data)
| DMap (entries : list (data * data))
| DIface (dyn : option (rtype * data))
| DStruct (fields : list data).

Inductive sel :=
| SField (i : nat)
| SDeref
| SIndex (i : nat)
| SMapVal (i : nat)
| SDyn.

#[global] Instance sel_eq_dec : EqDecision sel.
Proof. solve_decision. Defined.

Definition path : Type := list sel.

Definition child (d : data) (s : sel) : option data :=
  match d, s with
  | DStruct fs, SField i => fs !! i
  | DPtr p, SDeref => p
  | DSlice l, SIndex i => l !! i
  | DMap m, SMapVal i => snd <$> m !! i
  | DIface dyn, SDyn => snd <$> dyn
  | _, _ => None
  end.

Definition setChild (d : data) (s : sel) (x : data) : data :=
  match d, s with
  | DStruct fs, SField i => DStruct (<[i:=x]> fs)
  | DPtr (Some _), SDeref => DPtr (Some x)
  | DSlice l, SIndex i => DSlice (<[i:=x]> l)
  | DMap m, SMapVal i => DMap (alter (λ kv, (kv.1, x)) i m)
  | DIface (Some (t, _)), SDyn => DIface (Some (t, x))
  | _, _ => d
  end.

Fixpoint lookupPath (d : data) (p : path) : option data :=
  match p with
  | [] => Some d
  | s :: p' => child d s ≫= λ c, lookupPath c p'
  end.

Fixpoint updatePath (d : data) (p : path) (x : data) : option data :=
  match p with
  | [] => Some x
  | s :: p' =>
      child d s ≫= λ c, updatePath c p' x ≫= λ c', Some (setChild d s c')
  end.

(** ** The monad of Go computations over the memory *)

Inductive failure :=
| GoPanic (msg : string)
| IllTyped
| NotModelled (what : string)
| OutOfFuel.

Inductive outcome (A : Type) :=
| Ret (a : A) (st : data)
| Fail (f : failure).
Arguments Ret {A}.
Arguments Fail {A}.

Definition M (A : Type) : Type := data → outcome A.

#[global] Instance M_ret : MRet M := λ A a st, Ret a st.
#[global] Instance M_bind : MBind M := λ A B k m st,
  match m st with Ret a st' => k a st' | Fail f => Fail f end.
#[global] Instance M_fmap : FMap M := λ A B f m st,
  match m st with Ret a st' => Ret (f a) st' | Fail f => Fail f end.

Definition panic {A} (msg : string) : M A := λ _, Fail (GoPanic msg).
Definition fail {A} (f : failure) : M A := λ _, Fail f.

Definition load (p : path) : M data := λ st,
  match lookupPath st p with Some d => Ret d st | None => Fail IllTyped end.

Definition store (p : path) (x : data) : M unit := λ st,
  match updatePath st p x with Some st' => Ret tt st' | None => Fail IllTyped end.

(** ** [reflect.Value] *)

Inductive Value :=
| ZeroValue
| Val (t : rtype) (p : path) (flagAddr flagRO : bool).

(** A value of type [interface{}]: nil, or a dynamic type and the place of
    the value it holds. *)
Definition iface : Type := option (rtype * path).

Module Value.

Definition Kind (v : Value) : reflect.Kind :=
  match v with ZeroValue => reflect.Invalid | Val t _ _ _ => rtype.Kind t end.

Definition IsValid (v : Value) : bool :=
  match v with ZeroValue => false | _ => true end.

Definition Type_ (v : Value) : M rtype :=
  match v with
  | ZeroValue => panic "reflect: call of reflect.Value.Type on zero Value"
  | Val t _ _ _ => mret t
  end.

Definition CanAddr (v : Value) : bool :=
  match v with ZeroValue => false | Val _ _ a _ => a end.

Definition CanSet (v : Value) : bool :=
  match v with ZeroValue => false | Val _ _ a ro => a && negb ro end.

Definition CanInterface (v : Value) : M bool :=
  match v with
  | ZeroValue => panic "reflect: call of reflect.Value.CanInterface on zero Value"
  | Val _ _ _ ro => mret (negb ro)
  end.

Definition path_of (v : Value) : path :=
  match v with ZeroValue => [] | Val _ p _ _ => p end.

Definition IsNil (v : Value) : M bool :=
  match v with
  | ZeroValue => panic "reflect: call of reflect.Value.IsNil on zero Value"
  | Val t p _ _ =>
      match rtype.Kind t with
      | reflect.Ptr =>
          d ← load p;
          match d with DPtr o => mret (bool_decide (o = None)) | _ => fail IllTyped end
      | reflect.Interface =>
          d ← load p;
          match d with DIface o => mret (bool_decide (o = None)) | _ => fail IllTyped end
      | reflect.Chan | reflect.Func | reflect.Map | reflect.Slice
      | reflect.UnsafePointer =>
          fail (NotModelled "IsNil on a channel, function, map or slice")
      | _ => panic "reflect: call of reflect.Value.IsNil on a value that cannot be nil"
      end
  end.

Definition Elem (v : Value) : M Value :=
  match v with
  | ZeroValue => panic "reflect: call of reflect.Value.Elem on zero Value"
  | Val t p _ ro =>
      match rtype.Kind t with
      | reflect.Ptr =>
          d ← load p;
          match d, rtype.Elem t with
          | DPtr None, _ => mret ZeroValue
          | DPtr (Some _), Some e => mret (Val e (p ++ [SDeref]) true ro)
          | _, _ => fail IllTyped
          end
      | reflect.Interface =>
          d ← load p;
          match d with
          | DIface None => mret ZeroValue
          | DIface (Some (e, _)) => mret (Val e (p ++ [SDyn]) false ro)
          | _ => fail IllTyped
          end
      | _ => panic "reflect: call of reflect.Value.Elem on a value that is no pointer or interface"
      end
  end.

Definition Field (v : Value) (i : nat) : M Value :=
  match v with
  | ZeroValue => panic "reflect: call of reflect.Value.Field on zero Value"
  | Val t p a ro =>
      if decide (rtype.Kind t = reflect.Struct) then
        match rtype.Field t i with
        | Some f =>
            mret (Val (sfType f) (p ++ [SField i]) a (ro || negb (sfExported f)))
        | None => panic "reflect: Field index out of range"
        end
      else panic "reflect: call of reflect.Value.Field on a value that is no struct"
  end.

Definition Len (v : Value) : M nat :=
  match v with
  | ZeroValue => panic "reflect: call of reflect.Value.Len on zero Value"
  | Val t p _ _ =>
      match rtype.Kind t with
      | reflect.Slice =>
          d ← load p;
          match d with DSlice l => mret (length l) | _ => fail IllTyped end
      | reflect.Map =>
          d ← load p;
          match d with DMap m => mret (length m) | _ => fail IllTyped end
      | reflect.String =>
          d ← load p;
          match d with DString s => mret (String.length s) | _ => fail IllTyped end
      | reflect.Array | reflect.Chan =>
          fail (NotModelled "Len of an array or channel")
      | _ => panic "reflect: call of reflect.Value.Len on a value that has no length"
      end
  end.

Definition Index (v : Value) (i : nat) : M Value :=
  match v with
  | ZeroValue => panic "reflect: call of reflect.Value.Index on zero Value"
  | Val t p _ ro =>
      match rtype.Kind t with
      | reflect.Slice =>
          d ← load p;
          match d, rtype.Elem t with
          | DSlice l, Some e =>
              if decide (i < length l) then mret (Val e (p ++ [SIndex i]) true ro)
              else panic "reflect: slice index out of range"
          | _, _ => fail IllTyped
          end
      | reflect.Array | reflect.String =>
          fail (NotModelled "Index of an array or string")
      | _ => panic "reflect: call of reflect.Value.Index on a value that cannot be indexed"
      end
  end.

(** The keys of a map, each named by the position of its entry.  Go
    leaves the order of [MapKeys] unspecified; the model takes the order
    of the entries. *)
Definition MapKeys (v : Value) : M (list nat) :=
  match v with
  | ZeroValue => panic "reflect: call of reflect.Value.MapKeys on zero Value"
  | Val t p _ _ =>
      if decide (rtype.Kind t = reflect.Map) then
        d ← load p;
        match d with DMap m => mret (seq 0 (length m)) | _ => fail IllTyped end
      else panic "reflect: call of reflect.Value.MapKeys on a value that is no map"
  end.

(** The value stored under a key: a copy, hence not addressable. *)
Definition MapIndex (v : Value) (k : nat) : M Value :=
  match v with
  | ZeroValue => panic "reflect: call of reflect.Value.MapIndex on zero Value"
  | Val t p _ ro =>
      if decide (rtype.Kind t = reflect.Map) then
        d ← load p;
        match d, rtype.Elem t with
        | DMap m, Some e =>
            if decide (k < length m) then mret (Val e (p ++ [SMapVal k]) false ro)
            else mret ZeroValue
        | _, _ => fail IllTyped
        end
      else panic "reflect: call of reflect.Value.MapIndex on a value that is no map"
  end.

Definition Int (v : Value) : M Z :=
  match v with
  | ZeroValue => panic "reflect: call of reflect.Value.Int on zero Value"
  | Val t p _ _ =>
      if reflect.isSignedInt (rtype.Kind t) then
        d ← load p;
        match d with DInt n => mret n | _ => fail IllTyped end
      else panic "reflect: call of reflect.Value.Int on a value that is no signed integer"
  end.

Definition mustBeAssignable (v : Value) : M unit :=
  match v with
  | ZeroValue => panic "reflect: call of a setter on zero Value"
  | Val _ _ a ro =>
      if ro then panic "reflect: setter using value obtained using unexported field"
      else if a then mret tt
      else panic "reflect: setter using unaddressable value"
  end.

Definition SetInt (v : Value) (x : Z) : M unit :=
  mustBeAssignable v;;
  let k := Kind v in
  if reflect.isSignedInt k then store (path_of v) (DInt (wrapInt (reflect.intBits k) x))
  else panic "reflect: call of reflect.Value.SetInt on a value that is no signed integer".

(** [v.Set(reflect.ValueOf(&x))] for a fresh variable [x] of type [tx]
    holding [dx]: the pointer type [*tx] must be assignable to the type
    of [v], that is, the underlying type of [v] is [*tx]. *)
Definition SetNewPtr (v : Value) (tx : rtype) (dx : data) : M unit :=
  mustBeAssignable v;;
  match v with
  | ZeroValue => fail IllTyped
  | Val t p _ _ =>
      match rtype.underlying t, tx with
      | TPtr (TPrim s k), TPrim s' k' =>
          if decide (s = s' ∧ k = k') then store p (DPtr (Some dx))
          else panic "reflect.Set: value is not assignable to the type"
      | TInterface _, _ => store p (DIface (Some (TPtr tx, DPtr (Some dx))))
      | _, _ => panic "reflect.Set: value is not assignable to the type"
      end
  end.

Definition Interface (v : Value) : M iface :=
  match v with
  | ZeroValue => panic "reflect: call of reflect.Value.Interface on zero Value"
  | Val t p _ ro =>
      if ro then panic "reflect.Value.Interface: cannot return value obtained from unexported field or method"
      else if decide (rtype.Kind t = reflect.Interface) then
        d ← load p;
        match d with
        | DIface None => mret None
        | DIface (Some (e, _)) => mret (Some (e, p ++ [SDyn]))
        | _ => fail IllTyped
        end
      else mret (Some (t, p))
  end.

(** [reflect.NewAt(v.Type(), unsafe.Pointer(v.UnsafeAddr())).Elem()]: a
    fresh view of the storage of [v], addressable and free of the
    read-only flag. *)
Definition UnsafeAddr (v : Value) : M path :=
  match v with
  | ZeroValue => panic "reflect: call of reflect.Value.UnsafeAddr on zero Value"
  | Val _ p a _ =>
      if a then mret p
      else panic "reflect.Value.UnsafeAddr of unaddressable value"
  end.

End Value.

Definition reflect_ValueOf (o : iface) : Value :=
  match o with None => ZeroValue | Some (t, p) => Val t p false false end.

Definition reflect_NewAt_Elem (t : rtype) (addr : path) : Value :=
  Val t addr true false.

(** ** Errors and configuration *)

(** The values of Go's [error] that the package produces.  [ErrWrap e m]
    is [errors.Wrap(e, m.Error())]. *)
Inductive err :=
| ErrParse (text : string)
| ErrMaxLessThanMin (field : rtype)
| ErrBelowZero (field : rtype)
| ErrDefHigherThanMax (def max : Z)
| ErrDefLowerThanMin (def min : Z)
| ErrSanitizerNotFound (tname : string)
| ErrNoFieldFunc (tname : string)
| ErrOther (msg : string)
| ErrWrap (cause : err) (msg : err).

(** A Go [error]: [None] is [nil]. *)
Definition error : Type := option err.

(** The errors that report a faulty directive of a numeric field. *)
Definition isDirectiveError (e : err) : Prop :=
  match e with
  | ErrParse _ | ErrMaxLessThanMin _ | ErrBelowZero _
  | ErrDefHigherThanMax _ _ | ErrDefLowerThanMin _ _ => True
  | _ => False
  end.

Record Sanitizer := mkSanitizer {
  tagName : string;
  dateInput : list string;
  dateKeepFormat : bool;
  dateOutput : string
}.

Definition DefaultTagName : string := "san".

Definition fieldSanFn : Type := Sanitizer → Value → nat → M error.

(** Calling a nil function value. *)
Definition nilSanFn : fieldSanFn :=
  λ _ _ _, panic "runtime error: invalid memory address or nil pointer dereference".

(** The functions of the package that the four source files call but do
    not define. *)
Class Externals := {
  fieldTags : Sanitizer → reflect.StructTag → gmap string string;
  parseInt32 : string → err + Z;
  sanitizeSliceField : fieldSanFn;
  sanitizeStrField : fieldSanFn;
  sanitizeIntField : fieldSanFn;
  sanitizeInt8Field : fieldSanFn;
  sanitizeInt16Field : fieldSanFn;
  sanitizeInt64Field : fieldSanFn;
  sanitizeUintField : fieldSanFn;
  sanitizeUint8Field : fieldSanFn;
  sanitizeUint16Field : fieldSanFn;
  sanitizeUint32Field : fieldSanFn;
  sanitizeUint64Field : fieldSanFn;
  sanitizeFloat32Field : fieldSanFn;
  sanitizeFloat64Field : fieldSanFn;
  sanitizeBoolField : fieldSanFn
}.

(** Go's [if err := f(); err != nil { return err }]. *)
Notation "'check!' e ; k" :=
  (e ≫= λ r_ : error, match r_ with Some _ => mret r_ | None => k end)
  (at level 20, e at level 100, k at level 200, only parsing).

(** A [for] loop whose body may leave the function with an error. *)
Fixpoint forEach {A} (body : A → M error) (l : list A) : M error :=
  match l with
  | [] => mret None
  | x :: l' => check! body x; forEach body l'
  end.

Fixpoint collect {A B} (f : A → M B) (l : list A) : M (list B) :=
  match l with
  | [] => mret []
  | x :: l' => y ← f x; ys ← collect f l'; mret (y :: ys)
  end.

(** ** The accessor: the two variants of [GetUnexportedField] *)

Module Part000.

Definition GetUnexportedField (field : Value) : M Value :=
  t ← Value.Type_ field;
  a ← Value.UnsafeAddr field;
  mret (reflect_NewAt_Elem t a).

End Part000.

Module Part001.

Definition GetUnexportedField (field : Value) : M Value :=
  if negb (Value.CanAddr field) then mret field
  else
    deref ← (if decide (Value.Kind field = reflect.Ptr)
             then negb <$> Value.IsNil field else mret false);
    field ← (if deref : bool then Value.Elem field else mret field);
    t ← Value.Type_ field;
    a ← Value.UnsafeAddr field;
    mret (reflect_NewAt_Elem t a).

End Part001.

(** Which of the two variants the package is built with. *)
Inductive accessor := part_000 | part_001.

Definition GetUnexportedField (ver : accessor) : Value → M Value :=
  match ver with
  | part_000 => Part000.GetUnexportedField
  | part_001 => Part001.GetUnexportedField
  end.

(** ** int32.go *)

Definition hasKey (tags : gmap string string) (k : string) : bool :=
  bool_decide (is_Some (tags !! k)).

(** [tags[k]]: the empty string when the key is absent. *)
Definition tagOf (tags : gmap string string) (k : string) : string :=
  default EmptyString (tags !! k).

(** The directives of a numeric field once parsed and validated: the
    local variables [hasMin], [min], [hasMax], [max], [hasDef] and [def]
    of [sanitizeInt32Field]. *)
Record directives := mkDirectives {
  d_hasMin : bool; d_min : Z;
  d_hasMax : bool; d_max : Z;
  d_hasDef : bool; d_def : Z
}.

Section int32_go.
Context `{Externals} (ver : accessor).

(** Lines 12 to 29 of [sanitizeInt32Field]: the field made settable,
    its directives, and the values to sanitize (the field itself, or
    its elements when it is a slice). *)
Definition sanitizeInt32Field_targets (s : Sanitizer) (structValue : Value)
    (idx : nat) : M (Value * gmap string string * list Value) :=
  f ← Value.Field structValue idx;
  fieldValue ← GetUnexportedField ver f;
  st ← Value.Type_ structValue;
  tags ← match rtype.Field st idx with
         | Some sf => mret (fieldTags s (sfTag sf))
         | None => panic "reflect: Field index out of bounds"
         end;
  deref ← (if decide (Value.Kind fieldValue = reflect.Ptr)
           then negb <$> Value.IsNil fieldValue else mret false);
  fieldValue ← (if deref : bool then Value.Elem fieldValue else mret fieldValue);
  let isSlice := bool_decide (Value.Kind fieldValue = reflect.Slice) in
  fields ← (if negb isSlice then mret [fieldValue]
            else n ← Value.Len fieldValue;
                 collect (Value.Index fieldValue) (seq 0 n));
  mret (fieldValue, tags, fields).

(** Lines 31 to 94: the directives parsed and checked; the result is
    the error that [sanitizeInt32Field] returns, or the directives. *)
Definition sanitizeInt32Field_directives (tags : gmap string string)
    (fieldValue : Value) : M (err + directives) :=
  (* Minimum value *)
  let hasMin := hasKey tags "min" in
  match (if hasMin then parseInt32 (tagOf tags "min") else inr 0%Z) with
  | inl e => mret (inl e)
  | inr min =>
  (* Maximum value *)
  let hasMax := hasKey tags "max" in
  match (if hasMax then parseInt32 (tagOf tags "max") else inr 0%Z) with
  | inl e => mret (inl e)
  | inr max =>
  (* Checking if minimum is not higher than maximum *)
  if hasMax && hasMin && bool_decide (max < min)%Z then
    t ← Value.Type_ fieldValue; mret (inl (ErrMaxLessThanMin t))
  (* Checking if minimum and maximum are above 0 *)
  else if (hasMin && bool_decide (min < 0)%Z) || (hasMax && bool_decide (max < 0)%Z) then
    t ← Value.Type_ fieldValue; mret (inl (ErrBelowZero t))
  else
    (* Default value *)
    let hasDef := hasKey tags "def" in
    match (if hasDef then parseInt32 (tagOf tags "def") else inr 0%Z) with
    | inl e => mret (inl e)
    | inr def =>
    (* Making sure default is not smaller than min or higher than max *)
    if hasDef && hasMax && bool_decide (def > max)%Z then
      mret (inl (ErrDefHigherThanMax def max))
    else if hasDef && hasMin && bool_decide (def < min)%Z then
      mret (inl (ErrDefLowerThanMin def min))
    else mret (inr (mkDirectives hasMin min hasMax max hasDef def))
    end
  end end.

(** Lines 96 to 130: the loop [for _, field := range fields] and the
    final [return nil]. *)
Fixpoint sanitizeInt32Field_loop (d : directives) (fields : list Value) : M error :=
  match fields with
  | [] => mret None
  | field :: rest =>
      let isPtr := bool_decide (Value.Kind field = reflect.Ptr) in
      (* Pointer, nil, and we have a default: set it *)
      nilDef ← (if isPtr then Value.IsNil field else mret false);
      if isPtr && nilDef && d_hasDef d then
        Value.SetNewPtr field tInt32 (DInt (d_def d));;
        mret None
      else
        (* Pointer, nil, and no default *)
        nilNoDef ← (if isPtr then Value.IsNil field else mret false);
        if isPtr && nilNoDef && negb (d_hasDef d) then mret None
        else
          (* Not nil pointer. Dereference then continue as normal *)
          notNil ← (if isPtr then negb <$> Value.IsNil field else mret false);
          field ← (if isPtr && notNil then Value.Elem field else mret field);
          (* Apply min and max transforms *)
          (if d_hasMin d then
             oldNum ← Value.Int field;
             if decide (d_min d > int32 oldNum)%Z
             then Value.SetInt field (int64 (d_min d)) else mret tt
           else mret tt);;
          (if d_hasMax d then
             oldNum ← Value.Int field;
             if decide (d_max d < int32 oldNum)%Z
             then Value.SetInt field (int64 (d_max d)) else mret tt
           else mret tt);;
          sanitizeInt32Field_loop d rest
  end.

Definition sanitizeInt32Field (s : Sanitizer) (structValue : Value) (idx : nat)
    : M error :=
  x ← sanitizeInt32Field_targets s structValue idx;
  let '(fieldValue, tags, fields) := x in
  r ← sanitizeInt32Field_directives tags fieldValue;
  match r with
  | inl e => mret (Some e)
  | inr d => sanitizeInt32Field_loop d fields
  end.

End int32_go.

(** ** sanitize.go *)

Definition getValue (sanType : iface) : M Value :=
  let v := reflect_ValueOf sanType in
  if bool_decide (Value.Kind v = reflect.Ptr) || bool_decide (Value.Kind v = reflect.Interface)
  then Value.Elem v
  else mret v.

(** [st == reflect.Zero(reflect.TypeOf(st)).Interface()]: the comparison
    of an interface value with the zero value of its dynamic type.
    Comparing values of a slice, map or function type panics. *)
Definition eqZeroOfType (st : iface) : M bool :=
  match st with
  | None => panic "reflect: Zero(nil)"
  | Some (t, p) =>
      d ← load p;
      match rtype.Kind t, d with
      | reflect.Ptr, DPtr o => mret (bool_decide (o = None))
      | reflect.Bool, DBool b => mret (negb b)
      | reflect.String, DString x => mret (bool_decide (x = EmptyString))
      | reflect.Slice, _ | reflect.Map, _ | reflect.Func, _ =>
          panic "runtime error: comparing uncomparable type"
      | k, DInt n =>
          if reflect.isSignedInt k || reflect.isUnsignedInt k
          then mret (bool_decide (n = 0%Z)) else fail IllTyped
      | _, _ => fail (NotModelled "comparison with the zero value of this type")
      end
  end.

Definition isValid (st : iface) : M (bool * error) :=
  let v := reflect_ValueOf st in
  (* If we have a pointer, we should get the Value it points to *)
  value ← (if bool_decide (Value.Kind v = reflect.Ptr)
              || bool_decide (Value.Kind v = reflect.Interface)
           then Value.Elem v else mret v);
  if bool_decide (st = None) then mret (false, None)
  else if negb (bool_decide (Value.Kind value = reflect.Struct)) then mret (false, None)
  else
    zero ← (if negb (Value.CanSet value) then mret true else eqZeroOfType st);
    if zero : bool then mret (false, None) else mret (true, None).

(** One round of the loops of [iterable]: sanitize the element, then
    combine its error with the errors so far.  [iErr.Error()] on a nil
    [iErr] is a nil dereference. *)
Definition iterable_step (Sanitize : iface → M error) (elemAt : nat → M Value)
    (err : error) (k : nat) : M error :=
  e ← elemAt k;
  o ← Value.Interface e;
  iErr ← Sanitize o;
  match err with
  | None => mret iErr
  | Some e0 =>
      match iErr with
      | Some e1 => mret (Some (ErrWrap e0 e1))
      | None => panic "runtime error: invalid memory address or nil pointer dereference"
      end
  end.

Fixpoint iterable_loop (Sanitize : iface → M error) (elemAt : nat → M Value)
    (err : error) (keys : list nat) : M error :=
  match keys with
  | [] => mret err
  | k :: keys' =>
      err' ← iterable_step Sanitize elemAt err k;
      iterable_loop Sanitize elemAt err' keys'
  end.

(** [iterable], given the method [Sanitize] that it calls on the
    elements. *)
Definition iterable (Sanitize : iface → M error) (st : iface) : M (bool * error) :=
  value ← getValue st;
  if decide (Value.Kind value = reflect.Slice) then
    n ← Value.Len value;
    err ← (if decide (n ≠ 0)
           then iterable_loop Sanitize (Value.Index value) None (seq 0 n)
           else mret None);
    mret (true, err)
  else if decide (Value.Kind value = reflect.Map) then
    n ← Value.Len value;
    err ← (if decide (n ≠ 0)
           then keys ← Value.MapKeys value;
                iterable_loop Sanitize (Value.MapIndex value) None keys
           else mret None);
    mret (true, err)
  else mret (false, None).

Definition canConvertToString (t : rtype) : bool :=
  let k := rtype.Kind t in
  reflect.isSignedInt k || reflect.isUnsignedInt k
  || bool_decide (k = reflect.String)
  || match rtype.underlying t with
     | TSlice (TPrim "uint8" reflect.Uint8) | TSlice (TPrim "int32" reflect.Int32) => true
     | _ => false
     end.

(** [value.CanConvert(reflect.TypeOf(reflect.TypeOf([]string{})))]: the
    target is the pointer type behind [reflect.Type], whose base type is
    not exported by [reflect]; no type of the model converts to it. *)
Definition canConvertToTypeOfType (t : rtype) : bool := false.

Definition getFieldFunc (value : Value) (funcMap : gmap string fieldSanFn)
    : M (err + fieldSanFn) :=
  t ← Value.Type_ value;
  let ftype := rtype.String t in
  match funcMap !! ftype with
  | Some val => mret (inr val)
  | None =>
      if canConvertToString t || canConvertToTypeOfType t
      then mret (inr (default nilSanFn (funcMap !! "string")))
      else mret (inl (ErrNoFieldFunc ftype))
  end.

Definition GetSanitizeByType (funcs : gmap string fieldSanFn) (sanType : iface)
    : M (err + fieldSanFn) :=
  value ← getValue sanType;
  t ← Value.Type_ value;
  match funcs !! rtype.String t with
  | Some function => mret (inr function)
  | None => mret (inl (ErrSanitizerNotFound (rtype.String t)))
  end.

(** [RegisterSanitizer] returns the new contents of the table. *)
Definition RegisterSanitizer (funcs : gmap string fieldSanFn) (sanType : iface)
    (function : fieldSanFn) : M (gmap string fieldSanFn) :=
  value ← getValue sanType;
  t ← Value.Type_ value;
  mret (<[rtype.String t := function]> funcs).

(** [fkind == reflect.Ptr && field.Elem().Kind() == k] *)
Definition isPtrTo (k : reflect.Kind) (field : Value) : M bool :=
  if decide (Value.Kind field = reflect.Ptr) then
    e ← Value.Elem field; mret (bool_decide (Value.Kind e = k))
  else mret false.

Section sanitize_go.
Context `{Externals} (ver : accessor).

(** The six shapes of a primitive type that the table lists. *)
Definition shapes (name : string) (fn : fieldSanFn) : list (string * fieldSanFn) :=
  [ (name, fn); ("[]" +:+ name, fn); ("*[]" +:+ name, fn);
    ("*" +:+ name, fn); ("[]*" +:+ name, fn); ("*[]*" +:+ name, fn) ].

(** The initial value of the package variable [fieldSanFns]. *)
Definition fieldSanFns : gmap string fieldSanFn :=
  list_to_map
    (shapes "string" sanitizeStrField
     ++ shapes "int" sanitizeIntField
     ++ shapes "int8" sanitizeInt8Field
     ++ shapes "int16" sanitizeInt16Field
     ++ shapes "int32" (sanitizeInt32Field ver)
     ++ shapes "int64" sanitizeInt64Field
     ++ shapes "uint" sanitizeUintField
     ++ shapes "uint8" sanitizeUint8Field
     ++ shapes "uint16" sanitizeUint16Field
     ++ shapes "uint32" sanitizeUint32Field
     ++ shapes "uint64" sanitizeUint64Field
     ++ shapes "float32" sanitizeFloat32Field
     ++ shapes "float64" sanitizeFloat64Field
     ++ shapes "bool" sanitizeBoolField).

(** The part of the loop body of [sanitizeRec] that looks up and runs
    the sanitizer of the field's type. *)
Definition sanitizeRec_dispatch (funcs : gmap string fieldSanFn) (s : Sanitizer)
    (v field : Value) (i : nat) : M error :=
  r ← getFieldFunc field funcs;
  match r with
  | inr sanFn => sanFn s v i
  | inl _ => mret None
  end.

(** The element loops of [sanitizeRec]: dereference a pointer element,
    skip what is no struct, recurse into a struct. *)
Definition sanitizeRec_elem (rec : Value → M error) (elemAt : nat → M Value)
    (k : nat) : M error :=
  f ← elemAt k;
  f ← (if decide (Value.Kind f = reflect.Ptr) then Value.Elem f else mret f);
  if decide (Value.Kind f ≠ reflect.Struct) then mret None
  else rec f.

(** The body of the loop over the fields of [v] in [sanitizeRec]. *)
Definition sanitizeRec_body (rec : Value → M error) (funcs : gmap string fieldSanFn)
    (s : Sanitizer) (v : Value) (i : nat) : M error :=
  field ← Value.Field v i;
  let fkind := Value.Kind field in
  (* If the field is a slice, sanitize it first *)
  isPtrToSlice ← isPtrTo reflect.Slice field;
  let isSlice := bool_decide (fkind = reflect.Slice) in
  check! (if isSlice || isPtrToSlice then sanitizeSliceField s v i else mret None);
  isPtrToMap ← isPtrTo reflect.Map field;
  let isMap := bool_decide (fkind = reflect.Map) in
  (* Do we have a special sanitization function for this type? *)
  check! sanitizeRec_dispatch funcs s v field i;
  (* If the field is a struct, sanitize it recursively *)
  isPtrToStruct ← isPtrTo reflect.Struct field;
  if bool_decide (fkind = reflect.Struct) || isPtrToStruct then
    field ← (if isPtrToStruct : bool then Value.Elem field else mret field);
    rec field
  (* If the field is a slice of structs, recurse through them *)
  else if isSlice || isPtrToSlice then
    field ← (if isPtrToSlice : bool then Value.Elem field else mret field);
    n ← Value.Len field;
    forEach (sanitizeRec_elem rec (Value.Index field)) (seq 0 n)
  else if isMap || isPtrToMap then
    field ← (if isPtrToMap : bool then Value.Elem field else mret field);
    keys ← Value.MapKeys field;
    forEach (sanitizeRec_elem rec (Value.MapIndex field)) keys
  else mret None.

(** [sanitizeRec]; [fuel] bounds the depth of the recursion. *)
Fixpoint sanitizeRec (fuel : nat) (funcs : gmap string fieldSanFn) (s : Sanitizer)
    (v : Value) : M error :=
  match fuel with
  | 0 => fail OutOfFuel
  | S fuel' =>
      t ← Value.Type_ v;
      if decide (rtype.Kind t = reflect.Struct) then
        forEach (sanitizeRec_body (sanitizeRec fuel' funcs s) funcs s v)
                (seq 0 (rtype.NumField t))
      else panic "reflect: NumField of non-struct type"
  end.

(** [Sanitize]; [funcs] is the current value of the package variable
    [fieldSanFns]. *)
Fixpoint Sanitize (fuel : nat) (funcs : gmap string fieldSanFn) (s : Sanitizer)
    (o : iface) : M error :=
  match fuel with
  | 0 => fail OutOfFuel
  | S fuel' =>
      r ← iterable (Sanitize fuel' funcs s) o;
      match r.2 with
      | Some e => mret (Some e)
      | None =>
          vr ← isValid o;
          if vr.1 && negb r.1 then
            v ← Value.Elem (reflect_ValueOf o);
            sanitizeRec fuel' funcs s v
          else mret None
      end
  end.

End sanitize_go.

(** ** An instance of the external functions *)

Module SpecExternals.

(** [strings.Split] on a single separator character. *)
Fixpoint split (sep : ascii) (s : string) : list string :=
  match s with
  | EmptyString => [EmptyString]
  | String.String c r =>
      if decide (c = sep) then EmptyString :: split sep r
      else match split sep r with
           | x :: xs => String.String c x :: xs
           | [] => [String.String c EmptyString]
           end
  end.

Definition directive (d : string) : string * string :=
  match split "="%char d with
  | k :: v :: _ => (k, v)
  | k :: [] => (k, EmptyString)
  | [] => (EmptyString, EmptyString)
  end.

(** Modelled from the spec: the tag directive parser [fieldTags] is not
    among the source files.  The directives of the tag value under the
    configured key are separated by commas; each is a bare verb or a
    [key=value] pair; there is no validation. *)
Definition specFieldTags (s : Sanitizer) (tag : reflect.StructTag) : gmap string string :=
  list_to_map (directive <$> split ","%char (reflect.StructTag_Get tag (tagName s))).

Definition digit (c : ascii) : option Z :=
  let n := (Z.of_nat (nat_of_ascii c) - 48)%Z in
  if bool_decide (0 ≤ n ≤ 9)%Z then Some n else None.

Fixpoint digits (acc : Z) (s : string) : option Z :=
  match s with
  | EmptyString => Some acc
  | String.String c r => digit c ≫= λ d, digits (10 * acc + d) r
  end.

Definition number (s : string) : option Z :=
  match s with
  | EmptyString => None
  | String.String c r =>
      if decide (c = "-"%char) then
        if decide (r = EmptyString) then None else Z.opp <$> digits 0 r
      else if decide (c = "+"%char) then
        if decide (r = EmptyString) then None else digits 0 r
      else digits 0 s
  end.

(** Modelled from the spec: [parseInt32] is not among the source files.
    It reads a decimal number that fits 32 bits; anything else is the
    numeric parse failure of a directive. *)
Definition specParseInt32 (s : string) : err + Z :=
  match number s with
  | Some n => if bool_decide (- 2 ^ 31 ≤ n < 2 ^ 31)%Z then inr n else inl (ErrParse s)
  | None => inl (ErrParse s)
  end.

(** A field sanitizer that leaves the field as it is. *)
Definition inert : fieldSanFn := λ _ _ _, mret None.

(** The sanitizers of the other families and [sanitizeSliceField] are
    not among the source files either; this instance takes them inert,
    which is what a sanitizer does on a field without directives of its
    own. *)
#[export] Instance externals : Externals := {|
  fieldTags := specFieldTags;
  parseInt32 := specParseInt32;
  sanitizeSliceField := inert;
  sanitizeStrField := inert;
  sanitizeIntField := inert;
  sanitizeInt8Field := inert;
  sanitizeInt16Field := inert;
  sanitizeInt64Field := inert;
  sanitizeUintField := inert;
  sanitizeUint8Field := inert;
  sanitizeUint16Field := inert;
  sanitizeUint32Field := inert;
  sanitizeUint64Field := inert;
  sanitizeFloat32Field := inert;
  sanitizeFloat64Field := inert;
  sanitizeBoolField := inert
|}.

End SpecExternals.

(** ** Notions used in the statements *)

(** [clamp v a b], in the words of the specification: raised to [a] when
    below it, lowered to [b] when above it, unchanged otherwise. *)
Definition clamp (v a b : Z) : Z :=
  if decide (v < a)%Z then a else if decide (v > b)%Z then b else v.

(** The directive [k] is present and its text parses to [n]. *)
Definition tagInt {E : Externals} (tags : gmap string string) (k : string) : option Z :=
  match tags !! k with
  | Some text => match parseInt32 text with inr n => Some n | inl _ => None end
  | None => None
  end.

(** The directive sets that [sanitizeInt32Field] refuses. *)
Definition badDirectives {E : Externals} (tags : gmap string string) : Prop :=
  (∃ a b, tagInt tags "min" = Some a ∧ tagInt tags "max" = Some b ∧ (b < a)%Z)
  ∨ (∃ a, tagInt tags "min" = Some a ∧ (a < 0)%Z)
  ∨ (∃ b, tagInt tags "max" = Some b ∧ (b < 0)%Z)
  ∨ (∃ d b, tagInt tags "def" = Some d ∧ tagInt tags "max" = Some b ∧ (d > b)%Z)
  ∨ (∃ d a, tagInt tags "def" = Some d ∧ tagInt tags "min" = Some a ∧ (d < a)%Z).

(** What the two bounds of [d] make of [v]: the [min] transform, then the
    [max] transform. *)
Definition applyBounds (d : directives) (v : Z) : Z :=
  let v1 := if d_hasMin d && bool_decide (d_min d > v)%Z then d_min d else v in
  if d_hasMax d && bool_decide (d_max d < v1)%Z then d_max d else v1.

(** [d] holds what the directives [tags] say. *)
Definition parsed {E : Externals} (tags : gmap string string) (d : directives) : Prop :=
  d_hasMin d = hasKey tags "min" ∧ d_hasMax d = hasKey tags "max"
  ∧ d_hasDef d = hasKey tags "def"
  ∧ (if d_hasMin d then tagInt tags "min" = Some (d_min d) else d_min d = 0%Z)
  ∧ (if d_hasMax d then tagInt tags "max" = Some (d_max d) else d_max d = 0%Z)
  ∧ (if d_hasDef d then tagInt tags "def" = Some (d_def d) else d_def d = 0%Z).

(** What is assumed of [parseInt32]: its result has type [int32], and its
    error is the parse failure of a directive. *)
Class ParserOk (E : Externals) : Prop := {
  parse_range : ∀ text n, parseInt32 text = inr n → inInt32 n;
  parse_error : ∀ text e, parseInt32 text = inl e → isDirectiveError e
}.

(** Two paths that part ways: neither designates a node above or below
    the other. *)
Definition diverge (p q : path) : Prop :=
  ∃ c a b p' q', p = c ++ a :: p' ∧ q = c ++ b :: q' ∧ a ≠ b.

(** [st'] is [st] but for the node at [p] and what lies below it. *)
Definition frame (p : path) (st st' : data) : Prop :=
  ∀ q, diverge p q → lookupPath st' q = lookupPath st q.

(** A field sanitizer that writes to the field it is called on only. *)
Definition localSan (f : fieldSanFn) : Prop :=
  ∀ s v idx st e st',
    f s v idx st = Ret e st' → frame (Value.path_of v ++ [SField idx]) st st'.

Definition externalSans (E : Externals) : list fieldSanFn :=
  [ sanitizeSliceField; sanitizeStrField; sanitizeIntField; sanitizeInt8Field;
    sanitizeInt16Field; sanitizeInt64Field; sanitizeUintField; sanitizeUint8Field;
    sanitizeUint16Field; sanitizeUint32Field; sanitizeUint64Field;
    sanitizeFloat32Field; sanitizeFloat64Field; sanitizeBoolField ].

(** A dispatch table all of whose sanitizers are local. *)
Definition localTable (funcs : gmap string fieldSanFn) : Prop :=
  ∀ k f, funcs !! k = Some f → localSan f.

(** What is assumed of the sanitizers outside the source files when a
    statement follows one field through a whole traversal. *)
Definition SanitizersLocal (E : Externals) : Prop :=
  Forall localSan (externalSans E).

(** The rounds of the loop of [sanitizeRec] over the fields of [v] that
    come before the field [idx]. *)
Definition sanitizeRec_upto {E : Externals} (fuel : nat) (funcs : gmap string fieldSanFn)
    (s : Sanitizer) (v : Value) (idx : nat) : M error :=
  forEach (sanitizeRec_body (sanitizeRec fuel funcs s) funcs s v) (seq 0 idx).

(** A configuration and a record type for the examples: the default tag
    name, and [type Item struct { Count int32 `san:"min=1,max=10"` }]. *)
Definition demoSanitizer : Sanitizer := mkSanitizer DefaultTagName [] false "".

Definition demoItem : rtype :=
  TStruct "main.Item" [mkStructField "Count" tInt32 [("san", "min=1,max=10")] true].

(** [type Opt struct { Limit *int32 `san:"min=1,def=42"` }] *)
Definition demoOpt : rtype :=
  TStruct "main.Opt" [mkStructField "Limit" (TPtr tInt32) [("san", "min=1,def=42")] true].


(** [type Seq struct { Xs []*int32 `san:"min=1"` }] and
    [type Defaults struct { Xs []*int32 `san:"def=5"` }] *)
Definition demoSeq : rtype :=
  TStruct "main.Seq" [mkStructField "Xs" (TSlice (TPtr tInt32)) [("san", "min=1")] true].

Definition demoDefaults : rtype :=
  TStruct "main.Defaults"
    [mkStructField "Xs" (TSlice (TPtr tInt32)) [("san", "def=5")] true].

(** [type Index struct { Items map[string]Item }] and
    [type Shelf struct { Items []Item }] *)
Definition demoIndex : rtype :=
  TStruct "main.Index"
    [mkStructField "Items" (TMap (TPrim "string" reflect.String) demoItem) [] true].

Definition demoShelf : rtype :=
  TStruct "main.Shelf" [mkStructField "Items" (TSlice demoItem) [] true].

(** [Sanitize] with the instance [SpecExternals] of the external
    functions, the built-in table and the default configuration. *)
Definition demoSanitize (ver : accessor) (fuel : nat) : iface → M error :=
  @Sanitize SpecExternals.externals fuel (@fieldSanFns SpecExternals.externals ver)
    demoSanitizer.



(** The inputs on which [Sanitize] does nothing: nil (the nil interface, a
    nil pointer), a struct passed by value, which is not settable, an
    input equal to the zero value of its type, and an input that, once a
    pointer is followed, is neither a struct nor a slice nor a map. *)
Definition ineligible (o : iface) (st : data) : Prop :=
  o = None
  ∨ (∃ t p, o = Some (t, p) ∧ rtype.Kind t = reflect.Ptr
            ∧ lookupPath st p = Some (DPtr None))
  ∨ (∃ t p, o = Some (t, p) ∧ rtype.Kind t = reflect.Struct)
  ∨ eqZeroOfType o st = Ret true st
  ∨ (∃ v, getValue o st = Ret v st
          ∧ Value.Kind v ≠ reflect.Struct ∧ Value.Kind v ≠ reflect.Slice
          ∧ Value.Kind v ≠ reflect.Map).

(** Partial correctness of a computation from a given memory. *)
Definition wp {A} (m : M A) (st : data) (Q : A → data → Prop) : Prop :=
  match m st with Ret a st' => Q a st' | Fail _ => True end.

(** A computation that only reads, and what it returns. *)
Definition reads {A} (m : M A) (P : A → Prop) : Prop :=
  ∀ st a st', m st = Ret a st' → st' = st ∧ P a.

(** A computation that writes at [p] or below only, and what it returns. *)
Definition spec {A} (p : path) (m : M A) (P : A → Prop) : Prop :=
  ∀ st a st', m st = Ret a st' → frame p st st' ∧ P a.

(** [w] views the node at [q] or a node below it ([reflect] refuses to
    write through the zero Value). *)
Definition under (q : path) (w : Value) : Prop :=
  w = ZeroValue ∨ ∃ r, Value.path_of w = q ++ r.


(** ** Records for the examples of the further properties *)




(** [type Batch struct { Sizes []int32 `san:"min=1,max=10"` }] *)
Definition demoBatch : rtype :=
  TStruct "main.Batch" [mkStructField "Sizes" (TSlice tInt32) [("san", "min=1,max=10")] true].

(** The view of element [k] of the slice of [int32] stored at [q]. *)
Definition elemView (q : path) (k : nat) : Value :=
  Val tInt32 (q ++ [SIndex k]) true false.

(** [type Box struct { W int32 `san:"min=1,max=10"`; H int32 `san:"max=5"` }] *)
Definition demoBox : rtype :=
  TStruct "main.Box"
    [ mkStructField "W" tInt32 [("san", "min=1,max=10")] true;
      mkStructField "H" tInt32 [("san", "max=5")] true ].

(** [type Typo struct { N int32 `san:"min=one,max=-3"` }] *)
Definition demoTypo : rtype :=
  TStruct "main.Typo" [mkStructField "N" tInt32 [("san", "min=one,max=-3")] true].

(** The interface value [o] holds nothing, or a view of the node at [q] or
    of a node below it. *)
Definition rooted (q : path) (o : iface) : Prop :=
  match o with None => True | Some (_, p) => ∃ r, p = q ++ r end.


(** [type Crate struct { Top Item; Spare *Item }] *)
Definition demoCrate : rtype :=
  TStruct "main.Crate"
    [mkStructField "Top" demoItem [] true;
     mkStructField "Spare" (TPtr demoItem) [] true].


(** [type Gate struct { A int32 `san:"min=5,max=1"`; B int32 `san:"min=1,max=10"` }] *)
Definition demoGate : rtype :=
  TStruct "main.Gate"
    [mkStructField "A" tInt32 [("san", "min=5,max=1")] true;
     mkStructField "B" tInt32 [("san", "min=1,max=10")] true].

(** ** [SetField] (unnamed/part_000, unnamed/part_001) *)

(** Identity of types.  A type is identified with its description: its
    name or its constructor, and its components. *)
Fixpoint rtype_eqb (t u : rtype) : bool :=
  match t, u with
  | TPrim s k, TPrim s' k' => bool_decide (s = s') && bool_decide (k = k')
  | TNamed s a, TNamed s' b => bool_decide (s = s') && rtype_eqb a b
  | TPtr a, TPtr b => rtype_eqb a b
  | TSlice a, TSlice b => rtype_eqb a b
  | TMap k a, TMap k' b => rtype_eqb k k' && rtype_eqb a b
  | TInterface s, TInterface s' => bool_decide (s = s')
  | TStruct s fs, TStruct s' gs =>
      bool_decide (s = s')
      && (fix fields_eqb (fs gs : list (StructField rtype)) : bool :=
            match fs, gs with
            | [], [] => true
            | f :: fs', g :: gs' =>
                bool_decide (sfName f = sfName g)
                && rtype_eqb (sfType f) (sfType g)
                && bool_decide (sfTag f = sfTag g)
                && bool_decide (sfExported f = sfExported g)
                && fields_eqb fs' gs'
            | _, _ => false
            end) fs gs
  | _, _ => false
  end.

(** [v.Set(x)]: [v] must be assignable and [x] must not come from an
    unexported field; a value of the type of [v] is copied to the storage
    of [v]; a value of a type of another kind is refused, unless [v] has an
    interface type.  Assignment to a value of interface type and assignment
    between distinct types of the same kind are not modelled. *)
Definition Value_Set (v x : Value) : M unit :=
  Value.mustBeAssignable v;;
  match v, x with
  | _, ZeroValue => panic "reflect: call of reflect.Value.Set on zero Value"
  | ZeroValue, _ => fail IllTyped
  | Val t p _ _, Val tx px _ rox =>
      if rox then panic "reflect: reflect.Value.Set using value obtained using unexported field"
      else if rtype_eqb tx t then d ← load px; store p d
      else if bool_decide (rtype.Kind t = reflect.Interface)
      then fail (NotModelled "assignment to a value of interface type")
      else if bool_decide (rtype.Kind tx = rtype.Kind t)
      then fail (NotModelled "assignment between distinct types of one kind")
      else panic "reflect.Set: value is not assignable to the type"
  end.

Definition SetField (ver : accessor) (field : Value) (value : iface) : M unit :=
  ci ← Value.CanInterface field;
  field ← (if negb ci then GetUnexportedField ver field else mret field);
  Value_Set field (reflect_ValueOf value).



(** The kinds of the types that convert to [string]: the integer kinds
    and [String]. *)
Definition textKind (k : reflect.Kind) : bool :=
  reflect.isSignedInt k || reflect.isUnsignedInt k || bool_decide (k = reflect.String).

(** [type Age int32] and [type Person struct { Age Age `san:"min=1"` }] *)
Definition demoPerson : rtype :=
  TStruct "main.Person"
    [mkStructField "Age" (TPrim "main.Age" reflect.Int32) [("san", "min=1")] true].
(** * Properties *)

(** ** Paths *)

Lemma child_setChild_eq d s c x :
  child d s = Some c → child (setChild d s x) s = Some x.
Proof.
  destruct d, s; simpl; try discriminate; intros Hc.
  - destruct pointee; [done | discriminate].
  - apply list_lookup_insert_eq. by eapply lookup_lt_Some.
  - rewrite list_lookup_alter_eq. destruct (entries !! i); [done | discriminate].
  - destruct dyn as [[t d]|]; [done | discriminate].
  - apply list_lookup_insert_eq. by eapply lookup_lt_Some.
Qed.

Lemma child_setChild_ne d a b x :
  a ≠ b → child (setChild d a x) b = child d b.
Proof.
  intros Hne.
  destruct d as [| | | |[?|]| | |[[? ?]|]|], a, b; simpl; try done.
  - apply list_lookup_insert_ne. congruence.
  - rewrite list_lookup_alter_ne; [done | congruence].
  - apply list_lookup_insert_ne. congruence.
Qed.

Lemma lookupPath_app d p q :
  lookupPath d (p ++ q) = lookupPath d p ≫= λ c, lookupPath c q.
Proof.
  revert d. induction p as [|s p IH]; intros d; simpl; [done |].
  destruct (child d s); simpl; [apply IH | done].
Qed.

Lemma updatePath_lookup d p x d' :
  updatePath d p x = Some d' → lookupPath d' p = Some x.
Proof.
  revert d d'. induction p as [|s p IH]; intros d d'; simpl.
  - congruence.
  - destruct (child d s) as [c|] eqn:Hc; simpl; [| discriminate].
    destruct (updatePath c p x) as [c'|] eqn:Hu; simpl; [| discriminate].
    intros [= <-]. erewrite child_setChild_eq by done. simpl. eauto.
Qed.

Lemma updatePath_defined d p x y :
  lookupPath d p = Some y → is_Some (updatePath d p x).
Proof.
  revert d. induction p as [|s p IH]; intros d; simpl; [eauto |].
  destruct (child d s) as [c|]; simpl; [| discriminate].
  intros Hl. destruct (IH _ Hl) as [c' ->]. simpl. eauto.
Qed.

Lemma updatePath_frame d p x d' :
  updatePath d p x = Some d' → frame p d d'.
Proof.
  revert d d'. induction p as [|s p IH]; intros d d' Hu q (c & a & b & p' & q' & Hp & Hq & Hne).
  - by destruct c.
  - simpl in Hu. destruct (child d s) as [c0|] eqn:Hc; simpl in Hu; [| discriminate].
    destruct (updatePath c0 p x) as [c1|] eqn:Hu1; simpl in Hu; [| discriminate].
    injection Hu as <-. destruct c as [|s' c]; simpl in *.
    + injection Hp as -> ->. subst q. simpl. by rewrite child_setChild_ne.
    + injection Hp as <- ->. subst q. simpl.
      erewrite child_setChild_eq by done. rewrite Hc. simpl.
      eapply IH; [done |]. by exists c, a, b, p', q'.
Qed.

Lemma frame_refl p st : frame p st st.
Proof. by intros q _. Qed.

Lemma frame_trans p st1 st2 st3 :
  frame p st1 st2 → frame p st2 st3 → frame p st1 st3.
Proof. intros H1 H2 q Hq. rewrite H2, H1; done. Qed.

Lemma diverge_app p r q : diverge p q → diverge (p ++ r) q.
Proof.
  intros (c & a & b & p' & q' & -> & -> & Hne).
  exists c, a, b, (p' ++ r), q'. by rewrite <- app_assoc.
Qed.

Lemma frame_below p r st st' : frame (p ++ r) st st' → frame p st st'.
Proof. intros H q Hq. apply H. by apply diverge_app. Qed.

Lemma diverge_fields p i j r r' :
  i ≠ j → diverge (p ++ SField i :: r) (p ++ SField j :: r').
Proof. intros Hne. exists p, (SField i), (SField j), r, r'. split_and!; congruence. Qed.

(** ** The monad *)

Lemma wp_ret {A} (a : A) st Q : Q a st → wp (mret a) st Q.
Proof. done. Qed.

Lemma wp_bind {A B} (m : M A) (k : A → M B) st Q :
  wp m st (λ a st', wp (k a) st' Q) → wp (m ≫= k) st Q.
Proof. cbv [wp mbind M_bind]. by destruct (m st). Qed.

Lemma wp_mono {A} (m : M A) st (Q Q' : A → data → Prop) :
  wp m st Q → (∀ a st', Q a st' → Q' a st') → wp m st Q'.
Proof. unfold wp. destruct (m st); eauto. Qed.

Lemma wp_run {A} (m : M A) st Q a st' :
  wp m st Q → m st = Ret a st' → Q a st'.
Proof. unfold wp. intros H Heq. by rewrite Heq in H. Qed.

Lemma load_run st p d : lookupPath st p = Some d → load p st = Ret d st.
Proof. unfold load. by intros ->. Qed.

Lemma store_run st p x st' :
  updatePath st p x = Some st' → store p x st = Ret tt st'.
Proof. unfold store. by intros ->. Qed.

Ltac munfold :=
  unfold mbind, M_bind, mret, M_ret, fmap, M_fmap, panic, fail in *.

(** ** Directives *)

Section directives.
Context `{Externals}.

Lemma tagInt_Some tags k n :
  tagInt tags k = Some n →
  hasKey tags k = true ∧ parseInt32 (tagOf tags k) = inr n.
Proof.
  unfold tagInt, hasKey, tagOf. destruct (tags !! k) as [text|]; [| done].
  simpl. destruct (parseInt32 text) eqn:Hp; [done |]. intros [= ->].
  done.
Qed.

End directives.

Lemma int32_id n : inInt32 n → int32 n = n.
Proof.
  unfold inInt32, int32, wrapInt. intros Hn.
  rewrite Z.mod_small; lia.
Qed.

Lemma int64_id n : inInt32 n → int64 n = n.
Proof.
  unfold inInt32, int64, wrapInt. intros Hn.
  rewrite Z.mod_small; lia.
Qed.

Lemma updatePath_id d p x : lookupPath d p = Some x → updatePath d p x = Some d.
Proof.
  revert d. induction p as [|s p IH]; intros d; simpl; [congruence |].
  destruct (child d s) as [c|] eqn:Hc; simpl; [| discriminate].
  intros Hl. rewrite (IH _ Hl). simpl. f_equal.
  destruct d as [| | | |[?|]| | |[[? ?]|]|], s; simpl in *; try done.
  - congruence.
  - f_equal. by apply list_insert_id.
  - f_equal. apply list_eq. intros j.
    destruct (decide (i = j)) as [<-|];
      [rewrite list_lookup_alter_eq | by rewrite list_lookup_alter_ne].
    destruct (entries !! i) as [[k v]|]; simpl in *; congruence.
  - congruence.
  - f_equal. by apply list_insert_id.
Qed.


(** ** Reading and writing computations *)

Lemma bind_inv {A B} (m : M A) (k : A → M B) st b st' :
  (m ≫= k) st = Ret b st' → ∃ a st1, m st = Ret a st1 ∧ k a st1 = Ret b st'.
Proof. cbv [mbind M_bind]. destruct (m st); [eauto | discriminate]. Qed.

Lemma fmap_inv {A B} (f : A → B) (m : M A) st b st' :
  (f <$> m) st = Ret b st' → ∃ a, m st = Ret a st' ∧ b = f a.
Proof. cbv [fmap M_fmap]. destruct (m st); [| discriminate]. intros [= <- <-]. eauto. Qed.

Lemma ret_inv {A} (a b : A) st st' : (mret a : M A) st = Ret b st' → b = a ∧ st' = st.
Proof. cbv [mret M_ret]. by intros [= <- <-]. Qed.

Lemma reads_ret {A} (a : A) (P : A → Prop) : P a → reads (mret a) P.
Proof. intros HP st b st' [-> ->]%ret_inv. done. Qed.

Lemma reads_bind {A B} (m : M A) (k : A → M B) P Q :
  reads m P → (∀ a, P a → reads (k a) Q) → reads (m ≫= k) Q.
Proof.
  intros Hm Hk st b st' (a & st1 & H1 & H2)%bind_inv.
  apply Hm in H1 as [-> Ha]. by eapply Hk.
Qed.

Lemma reads_fmap {A B} (f : A → B) (m : M A) P Q :
  reads m P → (∀ a, P a → Q (f a)) → reads (f <$> m) Q.
Proof.
  intros Hm HQ st b st' (a & H1 & ->)%fmap_inv.
  apply Hm in H1 as [-> Ha]. eauto.
Qed.

Lemma reads_mono {A} (m : M A) (P Q : A → Prop) :
  reads m P → (∀ a, P a → Q a) → reads m Q.
Proof. intros Hm HPQ st a st' [-> Ha]%Hm. eauto. Qed.

Lemma reads_fail {A} (f : failure) (P : A → Prop) : reads (fail f) P.
Proof. by intros st a st'. Qed.

Lemma reads_panic {A} msg (P : A → Prop) : reads (panic msg) P.
Proof. by intros st a st'. Qed.

Lemma reads_load p : reads (load p) (λ _, True).
Proof. intros st a st'. unfold load. destruct (lookupPath st p); by intros [= <- <-]. Qed.

Lemma reads_collect {A B} (f : A → M B) (P : B → Prop) l :
  (∀ x, reads (f x) P) → reads (collect f l) (Forall P).
Proof.
  intros Hf. induction l as [|x l IH]; simpl.
  - by apply reads_ret.
  - eapply reads_bind; [apply Hf |]. intros y Hy.
    eapply reads_bind; [apply IH |]. intros ys Hys.
    apply reads_ret. by constructor.
Qed.

Lemma spec_reads {A} p (m : M A) P : reads m P → spec p m P.
Proof. intros Hm st a st' [-> Ha]%Hm. split; [apply frame_refl | done]. Qed.

Lemma spec_ret {A} p (a : A) (P : A → Prop) : P a → spec p (mret a) P.
Proof. intros. by apply spec_reads, reads_ret. Qed.

Lemma spec_bind {A B} p (m : M A) (k : A → M B) P Q :
  spec p m P → (∀ a, P a → spec p (k a) Q) → spec p (m ≫= k) Q.
Proof.
  intros Hm Hk st b st' (a & st1 & H1 & H2)%bind_inv.
  apply Hm in H1 as [Hf1 Ha]. apply (Hk _ Ha) in H2 as [Hf2 Hb].
  split; [by eapply frame_trans | done].
Qed.

Lemma spec_mono {A} p (m : M A) (P Q : A → Prop) :
  spec p m P → (∀ a, P a → Q a) → spec p m Q.
Proof. intros Hm HPQ st a st' [? Ha]%Hm. eauto. Qed.

Lemma spec_below {A} p r (m : M A) P : spec (p ++ r) m P → spec p m P.
Proof. intros Hm st a st' [? Ha]%Hm. split; [by eapply frame_below | done]. Qed.

Lemma spec_fail {A} p f (P : A → Prop) : spec p (fail f) P.
Proof. by intros st a st'. Qed.

Lemma spec_panic {A} p msg (P : A → Prop) : spec p (panic msg) P.
Proof. by intros st a st'. Qed.

Lemma spec_store p q x : spec p (store (p ++ q) x) (λ _, True).
Proof.
  intros st [] st'. unfold store.
  destruct (updatePath st (p ++ q) x) eqn:Hu; [| discriminate].
  intros [= <-]. split; [| done]. eapply frame_below, updatePath_frame, Hu.
Qed.

Lemma spec_forEach {A} p (body : A → M error) l :
  (∀ x, x ∈ l → spec p (body x) (λ _, True)) → spec p (forEach body l) (λ _, True).
Proof.
  induction l as [|x l IH]; intros Hb; simpl.
  - by apply spec_ret.
  - eapply spec_bind; [apply Hb; left |]. intros [e|] _.
    + by apply spec_ret.
    + apply IH. intros y Hy. apply Hb. by right.
Qed.

Lemma under_refl v : under (Value.path_of v) v.
Proof. right. exists []. by rewrite app_nil_r. Qed.

Lemma under_app q r w : under (q ++ r) w → under q w.
Proof. intros [-> | [r' Hr]]; [by left |]. right. exists (r ++ r'). by rewrite Hr, app_assoc. Qed.

Lemma under_trans v w q : under q v → under (Value.path_of v) w → v ≠ ZeroValue → under q w.
Proof.
  intros [-> | [r Hr]] Hw Hv; [done |].
  destruct Hw as [-> | [r' Hr']]; [by left |].
  right. exists (r ++ r'). by rewrite Hr', Hr, app_assoc.
Qed.

(** ** [reflect.Value]: what the operations read and where they write *)

Lemma reads_Type v : reads (Value.Type_ v) (λ t, ∃ p a ro, v = Val t p a ro).
Proof. destruct v; [apply reads_panic |]. apply reads_ret. eauto. Qed.

Lemma reads_IsNil v : reads (Value.IsNil v) (λ _, True).
Proof.
  destruct v as [|t p a ro]; [apply reads_panic |]. unfold Value.IsNil.
  destruct (rtype.Kind t); try apply reads_panic; try apply reads_fail;
    (eapply reads_bind; [apply reads_load |]; intros d _;
     destruct d; try apply reads_fail; by apply reads_ret).
Qed.

Lemma reads_Elem v : reads (Value.Elem v) (under (Value.path_of v)).
Proof.
  destruct v as [|t p a ro]; [apply reads_panic |]. unfold Value.Elem.
  destruct (rtype.Kind t); try apply reads_panic;
    (eapply reads_bind; [apply reads_load |]; intros d _).
  - destruct d as [| | | | | | |[[e x]|]|]; try apply reads_fail; apply reads_ret;
      [right; by eexists | by left].
  - destruct d as [| | | |[x|]| | | |]; try apply reads_fail;
      destruct (rtype.Elem t); try apply reads_fail; apply reads_ret;
      (by left) || (right; by eexists).
Qed.

Lemma reads_Field v i :
  reads (Value.Field v i) (λ f, ∃ t p a ro sf,
    v = Val t p a ro ∧ rtype.Kind t = reflect.Struct ∧ rtype.Field t i = Some sf ∧
    f = Val (sfType sf) (p ++ [SField i]) a (ro || negb (sfExported sf))).
Proof.
  destruct v as [|t p a ro]; [apply reads_panic |]. unfold Value.Field.
  case_decide; [| apply reads_panic].
  destruct (rtype.Field t i) as [sf|] eqn:Hf; [| apply reads_panic].
  apply reads_ret. by exists t, p, a, ro, sf.
Qed.

Lemma reads_Len v : reads (Value.Len v) (λ _, True).
Proof.
  destruct v as [|t p a ro]; [apply reads_panic |]. unfold Value.Len.
  destruct (rtype.Kind t); try apply reads_panic; try apply reads_fail;
    (eapply reads_bind; [apply reads_load |]; intros d _;
     destruct d; try apply reads_fail; by apply reads_ret).
Qed.

Lemma reads_Index v i : reads (Value.Index v i) (under (Value.path_of v)).
Proof.
  destruct v as [|t p a ro]; [apply reads_panic |]. unfold Value.Index.
  destruct (rtype.Kind t); try apply reads_panic; try apply reads_fail.
  eapply reads_bind; [apply reads_load |]; intros d _.
  destruct d; try apply reads_fail. destruct (rtype.Elem t); [| apply reads_fail].
  case_decide; [| apply reads_panic]. apply reads_ret. right. by eexists.
Qed.

Lemma reads_MapKeys v : reads (Value.MapKeys v) (λ _, True).
Proof.
  destruct v as [|t p a ro]; [apply reads_panic |]. unfold Value.MapKeys.
  case_decide; [| apply reads_panic].
  eapply reads_bind; [apply reads_load |]; intros d _.
  destruct d; try apply reads_fail. by apply reads_ret.
Qed.

Lemma reads_MapIndex v k : reads (Value.MapIndex v k) (under (Value.path_of v)).
Proof.
  destruct v as [|t p a ro]; [apply reads_panic |]. unfold Value.MapIndex.
  case_decide; [| apply reads_panic].
  eapply reads_bind; [apply reads_load |]; intros d _.
  destruct d; try apply reads_fail. destruct (rtype.Elem t); [| apply reads_fail].
  case_decide; apply reads_ret; [right; by eexists | by left].
Qed.

Lemma reads_Int v : reads (Value.Int v) (λ _, True).
Proof.
  destruct v as [|t p a ro]; [apply reads_panic |]. unfold Value.Int.
  destruct (reflect.isSignedInt _); [| apply reads_panic].
  eapply reads_bind; [apply reads_load |]; intros d _.
  destruct d; try apply reads_fail. by apply reads_ret.
Qed.

Lemma reads_mustBeAssignable v :
  reads (Value.mustBeAssignable v) (λ _, v ≠ ZeroValue).
Proof.
  destruct v as [|t p a ro]; [apply reads_panic |]. simpl.
  destruct ro; [apply reads_panic |]. destruct a; [| apply reads_panic].
  by apply reads_ret.
Qed.

Lemma spec_SetInt q v x : under q v → spec q (Value.SetInt v x) (λ _, True).
Proof.
  intros Hv. unfold Value.SetInt.
  eapply spec_bind; [apply spec_reads, reads_mustBeAssignable |]. intros u Hnz; simpl in Hnz; clear u.
  destruct Hv as [-> | [r Hr]]; [done |].
  destruct (reflect.isSignedInt _); [| apply spec_panic].
  rewrite Hr. apply spec_store.
Qed.

Lemma spec_SetNewPtr q v tx dx : under q v → spec q (Value.SetNewPtr v tx dx) (λ _, True).
Proof.
  intros Hv. unfold Value.SetNewPtr.
  eapply spec_bind; [apply spec_reads, reads_mustBeAssignable |]. intros u Hnz; simpl in Hnz; clear u.
  destruct v as [|t p a ro]; [done |]. clear Hnz.
  destruct Hv as [? | [r Hr]]; [done |]. simpl in Hr. subst p.
  destruct (rtype.underlying t) as [| |[]| | | |]; try apply spec_panic;
    try apply spec_store.
  destruct tx; try apply spec_panic. case_decide; [apply spec_store | apply spec_panic].
Qed.

Lemma reads_GetUnexportedField ver f :
  reads (GetUnexportedField ver f) (under (Value.path_of f)).
Proof.
  assert (∀ g, reads (t ← Value.Type_ g; a ← Value.UnsafeAddr g; mret (reflect_NewAt_Elem t a))
                     (under (Value.path_of g))) as Hnew.
  { intros g. eapply reads_bind; [apply reads_Type |]. intros t (p & a & ro & ->).
    simpl. destruct a.
    - eapply reads_bind; [by apply (reads_ret _ (λ x, x = p)) |]. intros ? ->.
      apply reads_ret. apply (under_refl (Val t p true false)).
    - eapply reads_bind with (P := λ _, False); [apply reads_panic | done]. }
  destruct ver; simpl; [apply Hnew |].
  unfold Part001.GetUnexportedField.
  destruct (negb (Value.CanAddr f)) eqn:Ha; [apply reads_ret, under_refl |].
  eapply reads_bind with (P := λ _, True).
  { case_decide; [| by apply reads_ret].
    eapply reads_fmap; [apply reads_IsNil | done]. }
  intros deref _. eapply reads_bind with (P := under (Value.path_of f)).
  { destruct deref; [apply reads_Elem | apply reads_ret, under_refl]. }
  intros g Hg. destruct g as [|tg pg ag rog] eqn:Hgeq.
  { eapply reads_bind with (P := λ _, False); [apply reads_panic | done]. }
  rewrite <- Hgeq in *. assert (g ≠ ZeroValue) as Hnz by (by subst g).
  eapply reads_mono; [apply Hnew |]. intros w Hw.
  destruct f as [|t p a ro]; [done |].
  eapply under_trans; [exact Hg | exact Hw | done].
Qed.

(** ** [sanitizeInt32Field] writes to its field only *)

Section int32_local.
Context {E : Externals} (ver : accessor).

Lemma reads_targets s structValue idx :
  reads (sanitizeInt32Field_targets ver s structValue idx)
    (λ x, Forall (under (Value.path_of structValue ++ [SField idx])) x.2).
Proof.
  unfold sanitizeInt32Field_targets.
  eapply reads_bind; [apply reads_Field |].
  intros f (t & p & a & ro & sf & -> & Hk & Hsf & ->).
  eapply reads_bind; [apply reads_GetUnexportedField |]. simpl. intros fv Hfv.
  eapply reads_bind; [by apply (reads_ret _ (λ _, True)) |]. intros t' _.
  eapply reads_bind with (P := λ _, True).
  { destruct (rtype.Field t' idx); [by apply reads_ret | apply reads_panic]. }
  intros tags _.
  eapply reads_bind with (P := λ _, True).
  { case_decide; [| by apply reads_ret].
    eapply reads_fmap; [apply reads_IsNil | done]. }
  intros deref _.
  eapply reads_bind with (P := under (p ++ [SField idx])).
  { destruct deref; [| by apply reads_ret].
    destruct fv as [|tv pv av rov] eqn:Hfveq; [apply reads_panic |].
    eapply reads_mono; [apply reads_Elem |]. intros w Hw.
    by eapply under_trans. }
  intros fv' Hfv'.
  eapply reads_bind with (P := Forall (under (p ++ [SField idx]))).
  { destruct (negb _); [apply reads_ret; by constructor |].
    eapply reads_bind; [apply reads_Len |]. intros n _.
    apply reads_collect. intros i.
    destruct fv' as [|tv pv av rov] eqn:Hfveq; [apply reads_panic |].
    eapply reads_mono; [apply reads_Index |]. intros w Hw.
    by eapply under_trans. }
  intros fields Hfields. by apply reads_ret.
Qed.

Lemma reads_directives tags fieldValue :
  reads (sanitizeInt32Field_directives tags fieldValue) (λ _, True).
Proof.
  unfold sanitizeInt32Field_directives.
  repeat first
    [ by apply reads_ret
    | eapply reads_bind with (P := λ _, True); [apply reads_mono with (1 := reads_Type _); done | intros ? _]
    | match goal with
      | |- reads (match ?x with _ => _ end) _ => destruct x
      | |- reads (if ?x then _ else _) _ => destruct x
      end ].
Qed.

Lemma spec_loop q d fields :
  Forall (under q) fields →
  spec q (sanitizeInt32Field_loop d fields) (λ _, True).
Proof.
  induction 1 as [|field rest Hf _ IH]; simpl; [by apply spec_ret |].
  assert (∀ b : bool, reads (if b then Value.IsNil field else mret false) (λ _, True)) as Hnil.
  { intros []; [apply reads_IsNil | by apply reads_ret]. }
  eapply spec_bind; [apply spec_reads, Hnil |]. intros nilDef _.
  destruct (_ && _ && d_hasDef d).
  { eapply spec_bind; [by apply spec_SetNewPtr |]. intros _ _. by apply spec_ret. }
  eapply spec_bind; [apply spec_reads, Hnil |]. intros nilNoDef _.
  destruct (_ && _ && negb _); [by apply spec_ret |].
  eapply spec_bind with (P := λ _, True).
  { apply spec_reads. destruct (bool_decide _); [| by apply reads_ret].
    eapply reads_fmap; [apply reads_IsNil | done]. }
  intros notNil _.
  eapply spec_bind with (P := under q).
  { apply spec_reads. destruct (_ && _); [| by apply reads_ret].
    destruct field as [|tv pv av rov] eqn:Hfveq; [apply reads_panic |].
    eapply reads_mono; [apply reads_Elem |]. intros w Hw.
    by eapply under_trans. }
  intros field' Hf'.
  assert (∀ (c : bool) (bound : Z) (test : Z → Prop) `{∀ n, Decision (test n)},
    spec q (if c then oldNum ← Value.Int field';
                      if decide (test (int32 oldNum))
                      then Value.SetInt field' (int64 bound) else mret ()
            else mret ()) (λ _, True)) as Hclamp.
  { intros [] bound test ?; [| by apply spec_ret].
    eapply spec_bind; [apply spec_reads, reads_Int |]. intros oldNum _.
    case_decide; [by apply spec_SetInt | by apply spec_ret]. }
  eapply spec_bind; [apply (Hclamp _ _ (λ n, d_min d > n)%Z _) |]. intros _ _.
  eapply spec_bind; [apply (Hclamp _ _ (λ n, d_max d < n)%Z _) |]. intros _ _.
  apply IH.
Qed.

Lemma sanitizeInt32Field_local : localSan (sanitizeInt32Field ver).
Proof.
  intros s v idx st e st' Hrun.
  eapply (spec_bind _ _ _ _ (λ _, True)); [| | exact Hrun].
  - apply spec_reads, reads_targets.
  - intros [[fv tags] fields] Hfields. simpl in Hfields.
    eapply spec_bind; [apply spec_reads, reads_directives |].
    intros [err|d] _; [by apply spec_ret |]. by apply spec_loop.
Qed.

End int32_local.

(** ** The traversal writes below the struct it is called on *)

Lemma localSan_spec f s v i :
  localSan f → spec (Value.path_of v ++ [SField i]) (f s v i) (λ _, True).
Proof. intros Hf st e st' Hrun. split; [by eapply Hf | done]. Qed.

Lemma localSan_nil : localSan nilSanFn.
Proof. by intros s v idx st e st'. Qed.

Lemma reads_isPtrTo k field : reads (isPtrTo k field) (λ _, True).
Proof.
  unfold isPtrTo. case_decide; [| by apply reads_ret].
  eapply reads_bind; [apply reads_Elem |]. intros e _. by apply reads_ret.
Qed.

Lemma reads_getFieldFunc value funcs :
  localTable funcs →
  reads (getFieldFunc value funcs)
        (λ r, match r with inr f => localSan f | inl _ => True end).
Proof.
  intros Hfuncs. unfold getFieldFunc.
  eapply reads_bind; [apply reads_Type |]. intros t _.
  destruct (funcs !! rtype.String t) as [f|] eqn:Hf.
  { apply reads_ret. by eapply Hfuncs. }
  destruct (_ || _); apply reads_ret; [| done].
  destruct (funcs !! "string") as [f|] eqn:Hs; simpl;
    [by eapply Hfuncs | apply localSan_nil].
Qed.

Lemma reads_elemOrSelf (b : bool) q field :
  under q field →
  reads (if b then Value.Elem field else mret field) (under q).
Proof.
  intros Hfield. destruct b; [| by apply reads_ret].
  destruct field as [|tv pv av rov] eqn:Heq; [apply reads_panic |].
  eapply reads_mono; [apply reads_Elem |]. intros w Hw. by eapply under_trans.
Qed.

Section traversal_local.
Context {E : Externals}.
Variables (funcs : gmap string fieldSanFn) (s : Sanitizer).
Hypothesis Hfuncs : localTable funcs.
Hypothesis Hslice : localSan sanitizeSliceField.

Lemma spec_sanitizeRec_elem q rec (elemAt : nat → M Value) k :
  (∀ w, under q w → spec q (rec w) (λ _, True)) →
  reads (elemAt k) (under q) →
  spec q (sanitizeRec_elem rec elemAt k) (λ _, True).
Proof.
  intros Hrec Hat. unfold sanitizeRec_elem.
  eapply spec_bind; [apply spec_reads, Hat |]. intros f Hf.
  eapply spec_bind with (P := under q).
  { apply spec_reads. case_decide; [by apply (reads_elemOrSelf true) | by apply reads_ret]. }
  intros f' Hf'. case_decide; [by apply spec_ret | by apply Hrec].
Qed.

Lemma spec_sanitizeRec_body rec v i :
  (∀ w, under (Value.path_of v ++ [SField i]) w →
        spec (Value.path_of v ++ [SField i]) (rec w) (λ _, True)) →
  spec (Value.path_of v ++ [SField i]) (sanitizeRec_body rec funcs s v i) (λ _, True).
Proof.
  intros Hrec. unfold sanitizeRec_body. set (q := Value.path_of v ++ [SField i]).
  eapply spec_bind; [apply spec_reads, reads_Field |].
  intros field (t & p & a & ro & sf & Hv & Hk & Hsf & Hfeq).
  assert (under q field) as Hfield.
  { subst v q field. apply under_refl. }
  clear Hfeq.
  eapply spec_bind; [apply spec_reads, reads_isPtrTo |]. intros isPtrToSlice _.
  eapply spec_bind with (P := λ _, True).
  { destruct (_ || _); [by apply localSan_spec | by apply spec_ret]. }
  intros [e|] _; [by apply spec_ret |].
  eapply spec_bind; [apply spec_reads, reads_isPtrTo |]. intros isPtrToMap _.
  eapply spec_bind with (P := λ _, True).
  { unfold sanitizeRec_dispatch.
    eapply spec_bind; [apply spec_reads, reads_getFieldFunc, Hfuncs |].
    intros [err|sanFn] Hsan; [by apply spec_ret | by apply localSan_spec]. }
  intros [e|] _; [by apply spec_ret |].
  eapply spec_bind; [apply spec_reads, reads_isPtrTo |]. intros isPtrToStruct _.
  destruct (_ || isPtrToStruct).
  { eapply spec_bind; [apply spec_reads, reads_elemOrSelf, Hfield |].
    intros w Hw. by apply Hrec. }
  destruct (_ || isPtrToSlice).
  { eapply spec_bind; [apply spec_reads, reads_elemOrSelf, Hfield |].
    intros w Hw. eapply spec_bind; [apply spec_reads, reads_Len |]. intros n _.
    apply spec_forEach. intros k _. apply spec_sanitizeRec_elem; [done |].
    destruct w as [|tv pv av rov] eqn:Heq; [apply reads_panic |].
    eapply reads_mono; [apply reads_Index |]. intros x Hx. by eapply under_trans. }
  destruct (_ || isPtrToMap); [| by apply spec_ret].
  eapply spec_bind; [apply spec_reads, reads_elemOrSelf, Hfield |].
  intros w Hw. eapply spec_bind; [apply spec_reads, reads_MapKeys |]. intros keys _.
  apply spec_forEach. intros k _. apply spec_sanitizeRec_elem; [done |].
  destruct w as [|tv pv av rov] eqn:Heq; [apply reads_panic |].
  eapply reads_mono; [apply reads_MapIndex |]. intros x Hx. by eapply under_trans.
Qed.

Lemma spec_sanitizeRec fuel v q :
  under q v → spec q (sanitizeRec fuel funcs s v) (λ _, True).
Proof.
  revert v q. induction fuel as [|fuel IH]; intros v q Hv; simpl; [apply spec_fail |].
  eapply spec_bind; [apply spec_reads, reads_Type |]. intros t (p & a & ro & ->).
  destruct Hv as [? | [r Hr]]; [done |]. simpl in Hr. subst p.
  case_decide; [| apply spec_panic].
  apply spec_below with (r := r). apply spec_forEach. intros i _.
  apply (spec_below _ [SField i]).
  apply (spec_sanitizeRec_body _ (Val t (q ++ r) a ro)). intros w Hw. by apply IH.
Qed.

End traversal_local.

(** ** Loops *)

Lemma forEach_app {A} (body : A → M error) l1 l2 st :
  forEach body (l1 ++ l2) st =
  match forEach body l1 st with
  | Ret None st1 => forEach body l2 st1
  | r => r
  end.
Proof.
  revert st. induction l1 as [|x l1 IH]; intros st; simpl; [done |].
  cbv [mbind M_bind]. destruct (body x st) as [[e|] st1|]; [done | apply IH | done].
Qed.

Lemma forEach_cons {A} (body : A → M error) x l st :
  forEach body (x :: l) st =
  match body x st with
  | Ret None st1 => forEach body l st1
  | r => r
  end.
Proof. simpl. cbv [mbind M_bind]. by destruct (body x st) as [[e|] st1|]. Qed.

(** ** The built-in table *)

Section table.
Context {E : Externals} (ver : accessor).

Lemma fieldSanFns_local : SanitizersLocal E → localTable (fieldSanFns ver).
Proof.
  intros HE k f Hk. unfold fieldSanFns in Hk.
  apply elem_of_list_to_map_2 in Hk.
  assert (Forall (λ kf : string * fieldSanFn, localSan kf.2)
    (shapes "string" sanitizeStrField ++ shapes "int" sanitizeIntField
     ++ shapes "int8" sanitizeInt8Field ++ shapes "int16" sanitizeInt16Field
     ++ shapes "int32" (sanitizeInt32Field ver) ++ shapes "int64" sanitizeInt64Field
     ++ shapes "uint" sanitizeUintField ++ shapes "uint8" sanitizeUint8Field
     ++ shapes "uint16" sanitizeUint16Field ++ shapes "uint32" sanitizeUint32Field
     ++ shapes "uint64" sanitizeUint64Field ++ shapes "float32" sanitizeFloat32Field
     ++ shapes "float64" sanitizeFloat64Field ++ shapes "bool" sanitizeBoolField)) as Hall.
  { unfold SanitizersLocal, externalSans in HE.
    repeat match goal with H : Forall _ (_ :: _) |- _ =>
      apply Forall_cons in H as [? H] end.
    pose proof (sanitizeInt32Field_local ver).
    unfold shapes. repeat (apply Forall_app; split); repeat constructor; done. }
  rewrite Forall_forall in Hall. by apply (Hall (k, f)).
Qed.

Lemma fieldSanFns_int32 : fieldSanFns ver !! "int32" = Some (sanitizeInt32Field ver).
Proof. reflexivity. Qed.

Lemma fieldSanFns_ptr_int32 : fieldSanFns ver !! "*int32" = Some (sanitizeInt32Field ver).
Proof. reflexivity. Qed.

End table.

Arguments fieldSanFns : simpl never.

Lemma forEach_seq_split (body : nat → M error) n idx st :
  idx < n →
  forEach body (seq 0 n) st =
  match forEach body (seq 0 idx) st with
  | Ret None st1 =>
      match body idx st1 with
      | Ret None st2 => forEach body (seq (S idx) (n - S idx)) st2
      | r => r
      end
  | r => r
  end.
Proof.
  intros Hlt. replace n with (idx + S (n - S idx)) at 1 by lia.
  rewrite seq_app, forEach_app. simpl.
  destruct (forEach body (seq 0 idx) st) as [[e|] st1|]; [done | | done].
  apply forEach_cons.
Qed.

(** ** From [Sanitize] to the loop over the fields *)

Section root.
Context {E : Externals}.
Variables (funcs : gmap string fieldSanFn) (s : Sanitizer).

Lemma Sanitize_root fuel t T p0 ds st :
  rtype.Kind t = reflect.Ptr →
  rtype.Elem t = Some T →
  rtype.Kind T = reflect.Struct →
  lookupPath st p0 = Some (DPtr (Some ds)) →
  Sanitize (S fuel) funcs s (Some (t, p0)) st =
  sanitizeRec fuel funcs s (Val T (p0 ++ [SDeref]) true false) st.
Proof.
  intros Ht He HT Hl. simpl.
  unfold iterable, getValue, isValid, eqZeroOfType. simpl.
  rewrite Ht. simpl. rewrite He.
  cbv [mbind M_bind mret M_ret]. rewrite !(load_run _ _ _ Hl). simpl.
  repeat (first [rewrite HT | rewrite (load_run _ _ _ Hl)]; simpl). done.
Qed.

Lemma sanitizeRec_fields fuel T p a ro st :
  rtype.Kind T = reflect.Struct →
  sanitizeRec (S fuel) funcs s (Val T p a ro) st =
  forEach (sanitizeRec_body (sanitizeRec fuel funcs s) funcs s (Val T p a ro))
          (seq 0 (rtype.NumField T)) st.
Proof. intros HT. simpl. munfold. by rewrite decide_True. Qed.

(** The rounds of the loop for the other fields leave a field as it is. *)
Lemma others_keep_field fuel v idx l st e st' r :
  localTable funcs → localSan sanitizeSliceField →
  idx ∉ l →
  forEach (sanitizeRec_body (sanitizeRec fuel funcs s) funcs s v) l st = Ret e st' →
  lookupPath st' (Value.path_of v ++ SField idx :: r) =
  lookupPath st (Value.path_of v ++ SField idx :: r).
Proof.
  intros Hfuncs Hslice. revert st. induction l as [|j l IH]; intros st Hidx Hrun.
  - by apply ret_inv in Hrun as [_ ->].
  - rewrite forEach_cons in Hrun.
    destruct (sanitizeRec_body _ _ _ _ j st) as [e1 st1|] eqn:Hj; [| done].
    assert (lookupPath st1 (Value.path_of v ++ SField idx :: r) =
            lookupPath st (Value.path_of v ++ SField idx :: r)) as Hst1.
    { eapply spec_sanitizeRec_body in Hj as [Hframe _]; try done.
      - apply Hframe. rewrite <- (app_nil_r (_ ++ [SField j])), <- app_assoc. simpl.
        apply diverge_fields. intros ->. apply Hidx. left.
      - intros w Hw. by apply spec_sanitizeRec. }
    destruct e1 as [e1|].
    + injection Hrun as <- <-. done.
    + rewrite <- Hst1. apply IH; [| done]. intros ?. apply Hidx. by right.
Qed.

End root.

(** ** The directives of a field *)

Section directives_ok.
Context {E : Externals}.

Lemma tagInt_present tags k n :
  hasKey tags k = true → parseInt32 (tagOf tags k) = inr n → tagInt tags k = Some n.
Proof.
  unfold hasKey, tagOf, tagInt. destruct (tags !! k) as [text|]; simpl.
  - by intros _ ->.
  - done.
Qed.

Lemma tagInt_absent tags k : hasKey tags k = false → tagInt tags k = None.
Proof.
  unfold hasKey, tagInt. destruct (tags !! k) as [text|]; [| done].
  done.
Qed.

Lemma tagInt_None_absent tags k : tags !! k = None → hasKey tags k = false.
Proof. unfold hasKey. by intros ->. Qed.

(** What [sanitizeInt32Field_directives] returns: the error of a faulty
    directive, or the directives, which then are not faulty. *)
Lemma directives_inv `{!ParserOk E} tags fieldValue st r st' :
  sanitizeInt32Field_directives tags fieldValue st = Ret r st' →
  st' = st ∧
  match r with
  | inl e => isDirectiveError e
  | inr d => parsed tags d ∧ ¬ badDirectives tags
  end.
Proof.
  unfold sanitizeInt32Field_directives.
  assert (∀ k, hasKey tags k = true ∨ hasKey tags k = false) as Hcase.
  { intros k. destruct (hasKey tags k); eauto. }
  assert (∀ (mk : rtype → err), (∀ t, isDirectiveError (mk t)) →
    ∀ r, (t ← Value.Type_ fieldValue; mret (inl (mk t) : err + directives)) st = Ret r st' →
      st' = st ∧ match r with inl e => isDirectiveError e | inr _ => False end) as Herr.
  { intros mk Hmk r0 (t & st1 & [-> _]%reads_Type & [-> ->]%ret_inv)%bind_inv. eauto. }
  destruct (Hcase "min") as [Hmin | Hmin]; rewrite Hmin;
    [destruct (parseInt32 (tagOf tags "min")) as [e|a] eqn:Hpa;
      [intros [-> ->]%ret_inv; split; [done | by eapply parse_error] |]
    | set (a := 0%Z)];
  (destruct (Hcase "max") as [Hmax | Hmax]; rewrite Hmax;
    [destruct (parseInt32 (tagOf tags "max")) as [e|b] eqn:Hpb;
      [intros [-> ->]%ret_inv; split; [done | by eapply parse_error] |]
    | set (b := 0%Z)]);
  simpl;
  repeat match goal with
  | |- context [bool_decide ?P] => destruct (bool_decide_reflect P); simpl
  end;
  try (intros Hrun; apply (Herr ErrMaxLessThanMin) in Hrun as [? ?]; [| done];
       destruct r; done);
  try (intros Hrun; apply (Herr ErrBelowZero) in Hrun as [? ?]; [| done];
       destruct r; done);
  (destruct (Hcase "def") as [Hdef | Hdef]; rewrite Hdef;
    [destruct (parseInt32 (tagOf tags "def")) as [e|d] eqn:Hpd;
      [intros [-> ->]%ret_inv; split; [done | by eapply parse_error] |]
    | set (d := 0%Z)]);
  simpl;
  repeat match goal with
  | |- context [bool_decide ?P] => destruct (bool_decide_reflect P); simpl
  end;
  intros [-> ->]%ret_inv; (split; [done |]); try done;
  (split;
   [ unfold parsed; simpl; rewrite ?Hmin, ?Hmax, ?Hdef; split_and!; try done;
     by apply tagInt_present
   | intros [(a' & b' & Ha' & Hb' & ?) | [(a' & Ha' & ?) | [(b' & Hb' & ?)
       | [(d' & b' & Hd' & Hb' & ?) | (d' & a' & Hd' & Ha' & ?)]]]];
     repeat match goal with
     | H : tagInt tags ?k = Some _, Hk : hasKey tags ?k = false |- _ =>
         rewrite (tagInt_absent _ _ Hk) in H; discriminate
     | H : tagInt tags ?k = Some _, Hk : hasKey tags ?k = true,
       Hp : parseInt32 (tagOf tags ?k) = inr _ |- _ =>
         rewrite (tagInt_present _ _ _ Hk Hp) in H; injection H as <-
     end; lia ]).
Qed.

End directives_ok.

(** ** [sanitizeInt32Field] on a field of type [int32] or [*int32] *)

Lemma updatePath_twice d p x y d1 d2 :
  updatePath d p x = Some d1 → updatePath d1 p y = Some d2 → updatePath d p y = Some d2.
Proof.
  revert d d1 d2. induction p as [|s p IH]; intros d d1 d2; simpl; [congruence |].
  destruct (child d s) as [c|] eqn:Hc; simpl; [| discriminate].
  destruct (updatePath c p x) as [c1|] eqn:Hu1; simpl; [| discriminate].
  intros [= <-]. erewrite child_setChild_eq by done. simpl.
  destruct (updatePath c1 p y) as [c2|] eqn:Hu2; simpl; [| discriminate].
  intros [= <-]. rewrite (IH _ _ _ Hu1 Hu2). simpl. f_equal.
  destruct d as [| | | |[?|]| | |[[? ?]|]|], s; simpl in *; try done.
  - f_equal. symmetry. apply list_insert_insert_eq.
  - f_equal. rewrite list_alter_alter_eq. by apply list_alter_ext.
  - f_equal. symmetry. apply list_insert_insert_eq.
Qed.

Section int32_exact.
Context {E : Externals} (ver : accessor).

Lemma targets_int32 s T p ro idx sf st :
  rtype.Kind T = reflect.Struct →
  rtype.Field T idx = Some sf →
  sfType sf = tInt32 →
  sanitizeInt32Field_targets ver s (Val T p true ro) idx st =
  Ret (Val tInt32 (p ++ [SField idx]) true false, fieldTags s (sfTag sf),
       [Val tInt32 (p ++ [SField idx]) true false]) st.
Proof.
  intros HT Hf Hty. unfold sanitizeInt32Field_targets, Value.Field.
  rewrite decide_True by done. rewrite Hf, Hty.
  destruct ver; simpl; cbv [mbind M_bind mret M_ret]; simpl; by rewrite Hf.
Qed.

Lemma targets_nil_ptr s T p ro idx sf st :
  rtype.Kind T = reflect.Struct →
  rtype.Field T idx = Some sf →
  sfType sf = TPtr tInt32 →
  lookupPath st (p ++ [SField idx]) = Some (DPtr None) →
  sanitizeInt32Field_targets ver s (Val T p true ro) idx st =
  Ret (Val (TPtr tInt32) (p ++ [SField idx]) true false, fieldTags s (sfTag sf),
       [Val (TPtr tInt32) (p ++ [SField idx]) true false]) st.
Proof.
  intros HT Hf Hty Hl. unfold sanitizeInt32Field_targets, Value.Field.
  rewrite decide_True by done. rewrite Hf, Hty.
  destruct ver; simpl; unfold Part001.GetUnexportedField; simpl;
    repeat first [ progress (cbv [mbind M_bind mret M_ret fmap M_fmap]; simpl)
                 | rewrite Hf | rewrite (load_run _ _ _ Hl) ]; done.
Qed.

Lemma Int_run q a ro v st :
  lookupPath st q = Some (DInt v) → Value.Int (Val tInt32 q a ro) st = Ret v st.
Proof. intros Hl. simpl. cbv [mbind M_bind]. by rewrite (load_run _ _ _ Hl). Qed.

Lemma SetInt_run q x st st' :
  inInt32 x →
  updatePath st q (DInt x) = Some st' →
  Value.SetInt (Val tInt32 q true false) (int64 x) st = Ret tt st'.
Proof.
  intros Hx Hu. unfold Value.SetInt. simpl. cbv [mbind M_bind mret M_ret].
  rewrite (int64_id x) by done. fold (int32 x). rewrite (int32_id x) by done.
  by rewrite (store_run _ _ _ _ Hu).
Qed.

(** One of the two transforms of the loop body. *)
Lemma bound_run (c : bool) (bound : Z) (test : Z → Prop) `{∀ n, Decision (test n)}
    q v st :
  lookupPath st q = Some (DInt v) → inInt32 v → inInt32 bound →
  ∃ st',
    (if c then oldNum ← Value.Int (Val tInt32 q true false);
               if decide (test (int32 oldNum))
               then Value.SetInt (Val tInt32 q true false) (int64 bound) else mret ()
     else mret ()) st = Ret tt st'
    ∧ updatePath st q (DInt (if c && bool_decide (test v) then bound else v)) = Some st'.
Proof.
  intros Hl Hv Hb. destruct c; cbv beta iota; cbv [andb].
  - cbv [mbind M_bind]. rewrite (Int_run q true false v st Hl), (int32_id v) by done.
    destruct (decide (test v)) as [Ht | Ht].
    + rewrite bool_decide_eq_true_2 by done.
      destruct (updatePath_defined st q (DInt bound) _ Hl) as [st' Hu].
      exists st'. split; [by apply SetInt_run | done].
    + rewrite bool_decide_eq_false_2 by done. exists st. split; [done |].
      by apply updatePath_id.
  - exists st. split; [done |]. by apply updatePath_id.
Qed.

Lemma loop_value d f rest st :
  Value.Kind f ≠ reflect.Ptr →
  sanitizeInt32Field_loop d (f :: rest) st =
  ((if d_hasMin d then
      oldNum ← Value.Int f;
      if decide (d_min d > int32 oldNum)%Z
      then Value.SetInt f (int64 (d_min d)) else mret ()
    else mret ());;
   (if d_hasMax d then
      oldNum ← Value.Int f;
      if decide (d_max d < int32 oldNum)%Z
      then Value.SetInt f (int64 (d_max d)) else mret ()
    else mret ());;
   sanitizeInt32Field_loop d rest) st.
Proof.
  intros Hk. cbn [sanitizeInt32Field_loop].
  rewrite (bool_decide_eq_false_2 _ Hk). reflexivity.
Qed.

Lemma loop_int32 d q v st :
  lookupPath st q = Some (DInt v) →
  inInt32 v → inInt32 (d_min d) → inInt32 (d_max d) →
  ∃ st', sanitizeInt32Field_loop d [Val tInt32 q true false] st = Ret None st'
         ∧ updatePath st q (DInt (applyBounds d v)) = Some st'.
Proof.
  intros Hl Hv Hmin Hmax. unfold applyBounds.
  set (v1 := if d_hasMin d && bool_decide (d_min d > v)%Z then d_min d else v).
  destruct (bound_run (d_hasMin d) (d_min d) (λ n, d_min d > n)%Z q v st)
    as (st1 & Hrun1 & Hu1); [done.. |]. fold v1 in Hu1.
  pose proof (updatePath_lookup _ _ _ _ Hu1) as Hl1.
  assert (inInt32 v1) as Hv1 by (subst v1; by destruct (_ && _)).
  destruct (bound_run (d_hasMax d) (d_max d) (λ n, d_max d < n)%Z q v1 st1)
    as (st2 & Hrun2 & Hu2); [done.. |].
  exists st2. split; [| by eapply updatePath_twice].
  rewrite loop_value by done. cbv [mbind M_bind] in *.
  by rewrite Hrun1, Hrun2.
Qed.

Lemma loop_nil_ptr d q st :
  lookupPath st q = Some (DPtr None) →
  ∃ st', sanitizeInt32Field_loop d [Val (TPtr tInt32) q true false] st = Ret None st'
         ∧ updatePath st q (if d_hasDef d then DPtr (Some (DInt (d_def d))) else DPtr None)
           = Some st'.
Proof.
  intros Hl. destruct (d_hasDef d) eqn:Hd.
  - destruct (updatePath_defined st q (DPtr (Some (DInt (d_def d)))) _ Hl) as [st' Hu].
    exists st'. split; [| done]. simpl. rewrite Hd.
    repeat first [ progress (cbv [mbind M_bind mret M_ret fmap M_fmap]; simpl)
                 | rewrite (load_run _ _ _ Hl) ].
    unfold Value.SetNewPtr. simpl.
    repeat first [ progress (cbv [mbind M_bind mret M_ret fmap M_fmap]; simpl)
                 | rewrite (store_run _ _ _ _ Hu) ]. done.
  - exists st. split; [| by apply updatePath_id]. simpl. rewrite Hd.
    repeat first [ progress (cbv [mbind M_bind mret M_ret fmap M_fmap]; simpl)
                 | rewrite (load_run _ _ _ Hl) ]. done.
Qed.

End int32_exact.

Section int32_results.
Context {E : Externals} {PO : ParserOk E} (ver : accessor).

Lemma parsed_has (tags : gmap string string) (d : directives) k n :
  tagInt tags k = Some n → hasKey tags k = true.
Proof. intros H. by apply tagInt_Some in H as [? ?]. Qed.

Lemma parsed_range tags d :
  parsed tags d → inInt32 (d_min d) ∧ inInt32 (d_max d) ∧ inInt32 (d_def d).
Proof.
  intros (_ & _ & _ & Hmin & Hmax & Hdef).
  assert (∀ (c : bool) k x,
    (if c then tagInt tags k = Some x else x = 0%Z) → inInt32 x) as Hr.
  { intros [] k x Hx.
    - apply tagInt_Some in Hx as [_ Hx]. by eapply parse_range.
    - subst x. unfold inInt32. lia. }
  split_and!; eapply Hr; eassumption.
Qed.

Lemma applyBounds_clamp d v a b :
  d_hasMin d = true → d_min d = a → d_hasMax d = true → d_max d = b →
  (a ≤ b)%Z → applyBounds d v = clamp v a b.
Proof.
  unfold applyBounds, clamp. intros -> -> -> -> Hab. simpl.
  repeat case_bool_decide; repeat case_decide; lia.
Qed.


(** [sanitizeInt32Field] on a nil field of type [*int32]. *)
Lemma nil_ptr_field s T p ro idx sf st st' :
  rtype.Kind T = reflect.Struct →
  rtype.Field T idx = Some sf →
  sfType sf = TPtr tInt32 →
  lookupPath st (p ++ [SField idx]) = Some (DPtr None) →
  sanitizeInt32Field ver s (Val T p true ro) idx st = Ret None st' →
  updatePath st (p ++ [SField idx])
    match tagInt (fieldTags s (sfTag sf)) "def" with
    | Some d => DPtr (Some (DInt d))
    | None => DPtr None
    end = Some st'.
Proof.
  intros HT Hf Hty Hl Hrun.
  apply bind_inv in Hrun as (x & st1 & Ht & Hrun).
  rewrite (targets_nil_ptr ver s T p ro idx sf st HT Hf Hty Hl) in Ht.
  injection Ht as <- <-.
  apply bind_inv in Hrun as (r & st1 & Hd & Hrun).
  apply directives_inv in Hd as [-> Hr]. destruct r as [e|d]; [done |].
  destruct Hr as [Hp _].
  destruct (loop_nil_ptr d (p ++ [SField idx]) st Hl) as (st2 & Hloop & Hu).
  rewrite Hloop in Hrun. injection Hrun as <-.
  destruct Hp as (_ & _ & HhasDef & _ & _ & Hdef).
  destruct (d_hasDef d).
  - by rewrite Hdef.
  - by rewrite tagInt_absent.
Qed.

Lemma reads_targets_tags s structValue idx :
  reads (sanitizeInt32Field_targets ver s structValue idx)
    (λ x, ∃ t p a ro sf, structValue = Val t p a ro ∧ rtype.Field t idx = Some sf
                         ∧ x.1.2 = fieldTags s (sfTag sf)).
Proof.
  unfold sanitizeInt32Field_targets.
  eapply reads_bind; [apply reads_Field |].
  intros f (t & p & a & ro & sf & -> & Hk & Hsf & ->).
  eapply reads_bind; [apply reads_GetUnexportedField |]. simpl. intros fv Hfv.
  eapply reads_bind; [by apply (reads_ret _ (λ t', t' = t)) |]. intros t' ->.
  rewrite Hsf.
  eapply reads_bind; [by apply (reads_ret _ (λ x, x = fieldTags s (sfTag sf))) |].
  intros tags ->.
  eapply reads_bind with (P := λ _, True).
  { case_decide; [| by apply reads_ret].
    eapply reads_fmap; [apply reads_IsNil | done]. }
  intros deref _.
  eapply reads_bind with (P := λ _, True).
  { destruct deref; [| by apply reads_ret].
    eapply reads_mono; [apply reads_Elem | done]. }
  intros fv' _.
  eapply reads_bind with (P := λ _, True).
  { destruct (negb _); [by apply reads_ret |].
    eapply reads_bind; [apply reads_Len |]. intros n _.
    eapply reads_mono; [apply (reads_collect _ (λ _, True)) | done].
    intros i. eapply reads_mono; [apply reads_Index | done]. }
  intros fields _. apply reads_ret. by exists t, p, a, ro, sf.
Qed.


End int32_results.

(** ** One round of the traversal on a field of type [int32] or [*int32] *)

Ltac mrun :=
  repeat first
    [ progress (cbv [mbind M_bind mret M_ret fmap M_fmap panic fail];
                cbn -[lookup fieldSanFns])
    | rewrite decide_False by done
    | rewrite decide_True by done
    | rewrite bool_decide_eq_false_2 by done
    | rewrite bool_decide_eq_true_2 by done ].

Section rounds.
Context {E : Externals}.
Variables (rec : Value → M error) (s : Sanitizer).
Variables (funcs : gmap string fieldSanFn) (f : fieldSanFn).

Lemma body_int32_gen T p a ro idx sf st :
  funcs !! "int32" = Some f →
  rtype.Kind T = reflect.Struct →
  rtype.Field T idx = Some sf →
  sfType sf = tInt32 →
  sanitizeRec_body rec funcs s (Val T p a ro) idx st = f s (Val T p a ro) idx st.
Proof.
  intros Hfn HT Hf Hty. unfold sanitizeRec_body, Value.Field.
  rewrite decide_True by done. rewrite Hf, Hty.
  unfold sanitizeRec_dispatch, getFieldFunc, isPtrTo. mrun.
  rewrite Hfn.
  by destruct (f s (Val T p a ro) idx st) as [[e|] st'|].
Qed.

Lemma body_ptr_int32_gen T p a ro idx sf x st :
  funcs !! "*int32" = Some f →
  rtype.Kind T = reflect.Struct →
  rtype.Field T idx = Some sf →
  sfType sf = TPtr tInt32 →
  lookupPath st (p ++ [SField idx]) = Some (DPtr x) →
  sanitizeRec_body rec funcs s (Val T p a ro) idx st =
  match f s (Val T p a ro) idx st with
  | Ret None st' =>
      match lookupPath st' (p ++ [SField idx]) with
      | Some (DPtr _) => Ret None st'
      | _ => Fail IllTyped
      end
  | r => r
  end.
Proof.
  intros Hfn HT Hf Hty Hl. unfold sanitizeRec_body, Value.Field.
  rewrite decide_True by done. rewrite Hf, Hty.
  unfold sanitizeRec_dispatch, getFieldFunc, isPtrTo. mrun.
  change ("*" +:+ "int32") with "*int32". rewrite Hfn.
  destruct x;
    repeat first [ progress mrun | rewrite (load_run _ _ _ Hl) ];
    destruct (f s (Val T p a ro) idx st) as [[e|] st'|];
    try done; unfold load; destruct (lookupPath st' (p ++ [SField idx])) as [[]|];
    try done; destruct pointee; done.
Qed.

End rounds.

Section rounds_builtin.
Context {E : Externals} (ver : accessor).
Variables (rec : Value → M error) (s : Sanitizer).

Lemma body_int32 T p a ro idx sf st :
  rtype.Kind T = reflect.Struct →
  rtype.Field T idx = Some sf →
  sfType sf = tInt32 →
  sanitizeRec_body rec (fieldSanFns ver) s (Val T p a ro) idx st =
  sanitizeInt32Field ver s (Val T p a ro) idx st.
Proof. apply body_int32_gen, fieldSanFns_int32. Qed.

Lemma body_ptr_int32 T p a ro idx sf x st :
  rtype.Kind T = reflect.Struct →
  rtype.Field T idx = Some sf →
  sfType sf = TPtr tInt32 →
  lookupPath st (p ++ [SField idx]) = Some (DPtr x) →
  sanitizeRec_body rec (fieldSanFns ver) s (Val T p a ro) idx st =
  match sanitizeInt32Field ver s (Val T p a ro) idx st with
  | Ret None st' =>
      match lookupPath st' (p ++ [SField idx]) with
      | Some (DPtr _) => Ret None st'
      | _ => Fail IllTyped
      end
  | r => r
  end.
Proof. apply body_ptr_int32_gen, fieldSanFns_ptr_int32. Qed.

End rounds_builtin.
(** ** The instance of the external functions meets the assumptions *)

Lemma spec_parser_ok : ParserOk SpecExternals.externals.
Proof.
  split; simpl; unfold SpecExternals.specParseInt32; intros text x;
    destruct (SpecExternals.number text) as [n|]; try case_bool_decide;
    intros [= <-]; done.
Qed.

Lemma spec_sanitizers_local : SanitizersLocal SpecExternals.externals.
Proof.
  unfold SanitizersLocal, externalSans. simpl.
  assert (localSan SpecExternals.inert) as Hinert.
  { intros s v idx st e st' [_ ->]%ret_inv. apply frame_refl. }
  repeat constructor; exact Hinert.
Qed.

(** ** Properties of [Sanitize] *)

Section root_field.
Context {E : Externals} (ver : accessor).
Variables (s : Sanitizer) (t T : rtype) (p0 : path) (idx : nat) (sf : StructField rtype).
Hypothesis Ht : rtype.Kind t = reflect.Ptr.
Hypothesis He : rtype.Elem t = Some T.
Hypothesis HT : rtype.Kind T = reflect.Struct.
Hypothesis Hsf : rtype.Field T idx = Some sf.
Hypothesis Hlocal : SanitizersLocal E.

Let v : Value := Val T (p0 ++ [SDeref]) true false.
Let q : path := p0 ++ [SDeref; SField idx].

Lemma root_pointee st d :
  lookupPath st q = Some d → ∃ ds, lookupPath st p0 = Some (DPtr (Some ds)).
Proof.
  unfold q. rewrite lookupPath_app. destruct (lookupPath st p0) as [c|]; [| done].
  simpl. destruct c as [| | | |[ds|]| | | |]; try done. eauto.
Qed.

Lemma q_eq : q = Value.path_of v ++ [SField idx].
Proof. unfold q, v. simpl. by rewrite <- app_assoc. Qed.

(** [Sanitize] on the address of a struct, as the rounds before the
    field, the round of the field, and the rounds after it. *)
Lemma Sanitize_rounds fuel ds st :
  lookupPath st p0 = Some (DPtr (Some ds)) →
  Sanitize (S (S fuel)) (fieldSanFns ver) s (Some (t, p0)) st =
  match sanitizeRec_upto fuel (fieldSanFns ver) s v idx st with
  | Ret None st1 =>
      match sanitizeRec_body (sanitizeRec fuel (fieldSanFns ver) s)
              (fieldSanFns ver) s v idx st1 with
      | Ret None st2 =>
          forEach (sanitizeRec_body (sanitizeRec fuel (fieldSanFns ver) s)
                     (fieldSanFns ver) s v)
                  (seq (S idx) (rtype.NumField T - S idx)) st2
      | r => r
      end
  | r => r
  end.
Proof.
  intros Hl. erewrite Sanitize_root by done.
  rewrite sanitizeRec_fields by done.
  apply forEach_seq_split. by eapply lookup_lt_Some.
Qed.

Lemma rounds_before_keep fuel st e st1 :
  sanitizeRec_upto fuel (fieldSanFns ver) s v idx st = Ret e st1 →
  lookupPath st1 q = lookupPath st q.
Proof.
  intros Hrun. rewrite q_eq.
  eapply others_keep_field; [by apply fieldSanFns_local | | | exact Hrun].
  - unfold SanitizersLocal, externalSans in Hlocal. by apply Forall_cons in Hlocal as [? _].
  - rewrite elem_of_seq. lia.
Qed.

Lemma rounds_after_keep fuel n st e st1 :
  forEach (sanitizeRec_body (sanitizeRec fuel (fieldSanFns ver) s) (fieldSanFns ver) s v)
          (seq (S idx) n) st = Ret e st1 →
  lookupPath st1 q = lookupPath st q.
Proof.
  intros Hrun. rewrite q_eq.
  eapply others_keep_field; [by apply fieldSanFns_local | | | exact Hrun].
  - unfold SanitizersLocal, externalSans in Hlocal. by apply Forall_cons in Hlocal as [? _].
  - rewrite elem_of_seq. lia.
Qed.

(** A successful [Sanitize] went through the three parts. *)
Lemma Sanitize_ok_rounds fuel st st' d :
  lookupPath st q = Some d →
  Sanitize fuel (fieldSanFns ver) s (Some (t, p0)) st = Ret None st' →
  ∃ fuel' st1 st2,
    lookupPath st1 q = lookupPath st q
    ∧ sanitizeRec_body (sanitizeRec fuel' (fieldSanFns ver) s) (fieldSanFns ver) s v idx st1
      = Ret None st2
    ∧ lookupPath st' q = lookupPath st2 q.
Proof.
  intros Hl Hrun. destruct (root_pointee _ _ Hl) as [ds Hds].
  destruct fuel as [|[|fuel]]; [done | |].
  { erewrite Sanitize_root in Hrun by done. done. }
  rewrite (Sanitize_rounds _ _ _ Hds) in Hrun.
  destruct (sanitizeRec_upto _ _ _ _ _ _) as [[e1|] st1|] eqn:H1; [done | | done].
  destruct (sanitizeRec_body _ _ _ _ _ st1) as [[e2|] st2|] eqn:H2; [done | | done].
  exists fuel, st1, st2. split_and!; [by eapply rounds_before_keep | done |].
  by eapply rounds_after_keep.
Qed.

End root_field.



(** C2.  A field of type [*int32] of the struct whose address is given to
    [Sanitize], nil before the call: when [Sanitize] returns nil, the
    field points to [d] if the directive [def=d] is present, whatever the
    directives [min] and [max] say, and it is still nil if there is no
    directive [def]. *)
Theorem Sanitize_nil_pointer_default
    {E : Externals} (ver : accessor) (fuel : nat) (s : Sanitizer) (t T : rtype)
    (p0 : path) (idx : nat) (sf : StructField rtype) (st st' : data) :
  ParserOk E → SanitizersLocal E →
  rtype.Kind t = reflect.Ptr → rtype.Elem t = Some T → rtype.Kind T = reflect.Struct →
  rtype.Field T idx = Some sf → sfType sf = TPtr tInt32 →
  lookupPath st (p0 ++ [SDeref; SField idx]) = Some (DPtr None) →
  Sanitize fuel (fieldSanFns ver) s (Some (t, p0)) st = Ret None st' →
  (∀ d, tagInt (fieldTags s (sfTag sf)) "def" = Some d →
        lookupPath st' (p0 ++ [SDeref; SField idx]) = Some (DPtr (Some (DInt d))))
  ∧ (fieldTags s (sfTag sf) !! "def" = None →
     lookupPath st' (p0 ++ [SDeref; SField idx]) = Some (DPtr None)).
Proof.
  intros HPO Hlocal Ht He HT Hsf Hty Hl Hrun.
  destruct (Sanitize_ok_rounds ver s t T p0 idx sf Ht He HT Hsf Hlocal fuel st st' _ Hl Hrun)
    as (fuel' & st1 & st2 & H1 & H2 & H3).
  rewrite H3. rewrite Hl in H1. clear H3 Hrun Hl.
  replace (p0 ++ [SDeref; SField idx]) with ((p0 ++ [SDeref]) ++ [SField idx]) in *
    by (by rewrite <- app_assoc).
  erewrite body_ptr_int32 in H2 by done.
  destruct (sanitizeInt32Field ver s _ idx st1) as [[e|] st2'|] eqn:Hfield; try done.
  assert (st2' = st2) as ->.
  { destruct (lookupPath st2' _) as [[]|]; try done. by injection H2. }
  eapply (nil_ptr_field ver) in Hfield; [| done..].
  apply updatePath_lookup in Hfield. rewrite Hfield. split.
  - by intros d ->.
  - intros Hnone. unfold tagInt. by rewrite Hnone.
Qed.

Lemma Sanitize_nil_pointer_default_witness :
  demoSanitize part_000 3 (Some (TPtr demoOpt, [])) (DPtr (Some (DStruct [DPtr None])))
  = Ret None (DPtr (Some (DStruct [DPtr (Some (DInt 42))])))
  ∧ lookupPath (DPtr (Some (DStruct [DPtr (Some (DInt 42))]))) [SDeref; SField 0]
    = Some (DPtr (Some (DInt 42))).
Proof.
  split; [vm_compute; reflexivity |].
  apply (proj1 (@Sanitize_nil_pointer_default SpecExternals.externals part_000 3
           demoSanitizer (TPtr demoOpt) demoOpt [] 0
           (mkStructField "Limit" (TPtr tInt32) [("san", "min=1,def=42")] true)
           (DPtr (Some (DStruct [DPtr None])))
           (DPtr (Some (DStruct [DPtr (Some (DInt 42))])))
           spec_parser_ok spec_sanitizers_local eq_refl eq_refl eq_refl eq_refl eq_refl
           eq_refl ltac:(vm_compute; reflexivity))).
  vm_compute; reflexivity.
Defined.

(** ** Faulty directives *)

Section faulty.
Context {E : Externals} {PO : ParserOk E} (ver : accessor).




End faulty.



(** ** The two variants of the accessor *)

(** C10.  On a field reference that is addressable and not of pointer
    kind, the two variants of [GetUnexportedField] return the same
    reference: one that is settable and views the storage and the type of
    the field. *)
Theorem GetUnexportedField_variants_agree (field : Value) (st : data) :
  Value.CanAddr field = true →
  Value.Kind field ≠ reflect.Ptr →
  Part000.GetUnexportedField field st = Part001.GetUnexportedField field st
  ∧ ∃ w, Part000.GetUnexportedField field st = Ret w st
         ∧ Value.CanSet w = true
         ∧ Value.path_of w = Value.path_of field
         ∧ Value.Type_ w st = Value.Type_ field st.
Proof.
  intros Haddr Hkind. destruct field as [|t p a ro]; [done |].
  simpl in Haddr, Hkind. subst a.
  unfold Part000.GetUnexportedField, Part001.GetUnexportedField. simpl.
  rewrite decide_False by done. split; [reflexivity |].
  exists (Val t p true false). done.
Qed.

Lemma GetUnexportedField_variants_agree_witness :
  Part000.GetUnexportedField (Val tInt32 [SDeref; SField 0] true true)
    (DPtr (Some (DStruct [DInt 3])))
  = Part001.GetUnexportedField (Val tInt32 [SDeref; SField 0] true true)
      (DPtr (Some (DStruct [DInt 3]))).
Proof.
  apply (proj1 (GetUnexportedField_variants_agree
                  (Val tInt32 [SDeref; SField 0] true true)
                  (DPtr (Some (DStruct [DInt 3]))) eq_refl ltac:(simpl; discriminate))).
Defined.

(** The restriction to the non-pointer kind matters: on a non-nil pointer
    the second variant views the pointee. *)
Example GetUnexportedField_variants_differ_on_pointer :
  Part000.GetUnexportedField (Val (TPtr tInt32) [SDeref; SField 0] true false)
    (DPtr (Some (DStruct [DPtr (Some (DInt 3))])))
  = Ret (Val (TPtr tInt32) [SDeref; SField 0] true false)
      (DPtr (Some (DStruct [DPtr (Some (DInt 3))])))
  ∧ Part001.GetUnexportedField (Val (TPtr tInt32) [SDeref; SField 0] true false)
      (DPtr (Some (DStruct [DPtr (Some (DInt 3))])))
    = Ret (Val tInt32 [SDeref; SField 0; SDeref] true false)
        (DPtr (Some (DStruct [DPtr (Some (DInt 3))]))).
Proof. split; reflexivity. Qed.

(** ** Dispatch *)

Section dispatch.
Context {E : Externals}.
Variables (funcs : gmap string fieldSanFn) (s : Sanitizer).




Lemma forEach_skips {A} (body : A → M error) l st :
  (∀ x, x ∈ l → body x st = Ret None st) → forEach body l st = Ret None st.
Proof.
  induction l as [|x l IH]; intros Hb; [done |].
  rewrite forEach_cons, Hb by left. apply IH. intros y Hy. apply Hb. by right.
Qed.


End dispatch.


(** ** Inputs that [Sanitize] leaves alone *)

Section ineligible_inputs.
Context {E : Externals}.
Variables (funcs : gmap string fieldSanFn) (s : Sanitizer).

(** After [getValue], neither a struct nor a slice nor a map. *)
Lemma Sanitize_other_kind fuel o v st :
  getValue o st = Ret v st →
  Value.Kind v ≠ reflect.Struct → Value.Kind v ≠ reflect.Slice →
  Value.Kind v ≠ reflect.Map →
  Sanitize (S fuel) funcs s o st = Ret None st.
Proof.
  intros Hv Hstruct Hslice Hmap. simpl. unfold iterable, isValid.
  fold (getValue o). cbv [mbind M_bind]. rewrite Hv.
  rewrite !decide_False by done. simpl. rewrite Hv.
  destruct (bool_decide (o = None)); [done |].
  by rewrite bool_decide_eq_false_2.
Qed.

(** A struct passed by value. *)
Lemma Sanitize_struct_by_value fuel t p st :
  rtype.Kind t = reflect.Struct →
  Sanitize (S fuel) funcs s (Some (t, p)) st = Ret None st.
Proof.
  intros Ht. simpl. unfold iterable, isValid, getValue. simpl. rewrite Ht. simpl.
  cbv [mbind M_bind mret M_ret]. simpl.
  repeat (rewrite ?Ht; simpl). done.
Qed.

Lemma getValue_nil_pointer t p st :
  rtype.Kind t = reflect.Ptr →
  lookupPath st p = Some (DPtr None) →
  getValue (Some (t, p)) st = Ret ZeroValue st.
Proof.
  intros Ht Hl. unfold getValue. simpl. rewrite Ht. simpl.
  cbv [mbind M_bind]. by rewrite (load_run _ _ _ Hl).
Qed.

Lemma Sanitize_ineligible fuel o st :
  ineligible o st → Sanitize (S fuel) funcs s o st = Ret None st.
Proof.
  intros [-> | [(t & p & -> & Ht & Hl) | [(t & p & -> & Ht) | [Hz | (v & Hv & ? & ? & ?)]]]].
  - by apply (Sanitize_other_kind fuel None ZeroValue).
  - eapply Sanitize_other_kind; [by apply getValue_nil_pointer | done..].
  - by apply Sanitize_struct_by_value.
  - destruct o as [[t p]|]; [| done]. unfold eqZeroOfType in Hz.
    apply bind_inv in Hz as (d & st1 & Hload & Hz).
    pose proof Hload as [-> _]%reads_load.
    unfold load in Hload. destruct (lookupPath st p) as [d'|] eqn:Hl; [| done].
    injection Hload as ->.
    destruct (rtype.Kind t) eqn:Ht; try done;
      try (destruct d; try done; simpl in Hz;
           eapply (Sanitize_other_kind fuel _ (Val t p false false));
           [unfold getValue; simpl; by rewrite Ht | simpl; by rewrite Ht..]).
    all: try (destruct d as [| | | |[x|]| | | |]; try done).
    eapply Sanitize_other_kind; [by apply getValue_nil_pointer | done..].
  - by eapply Sanitize_other_kind.
Qed.

End ineligible_inputs.

(** C5, as the code has it.  [Sanitize] returns nil and leaves the memory
    as it is on every input that is nil, that is a struct passed by value
    (not settable), that equals the zero value of its type, or that, once
    a pointer is followed, is neither a struct nor a slice nor a map.  (A
    slice or a map is not among them: its elements are sanitized in
    turn.) *)
Theorem Sanitize_noop_on_ineligible_input
    {E : Externals} (funcs : gmap string fieldSanFn) (s : Sanitizer) (fuel : nat)
    (o : iface) (st : data) :
  ineligible o st → Sanitize (S fuel) funcs s o st = Ret None st.
Proof. apply Sanitize_ineligible. Qed.

Lemma Sanitize_noop_on_ineligible_input_witness :
  demoSanitize part_000 1 (Some (demoItem, [])) (DStruct [DInt 0])
  = Ret None (DStruct [DInt 0]).
Proof.
  apply (@Sanitize_noop_on_ineligible_input SpecExternals.externals
           (@fieldSanFns SpecExternals.externals part_000) demoSanitizer 0
           (Some (demoItem, [])) (DStruct [DInt 0])).
  right; right; left. exists demoItem, []. split; reflexivity.
Defined.

(** C5, as the claim has it, fails: a slice of pointers to structs, passed
    by value, is not settable and is no struct, and [Sanitize] changes
    what its elements point to. *)
Lemma Sanitize_sanitizes_the_elements_of_a_slice :
  Value.CanSet (reflect_ValueOf (Some (TSlice (TPtr demoItem), []))) = false
  ∧ Value.Kind (reflect_ValueOf (Some (TSlice (TPtr demoItem), []))) ≠ reflect.Struct
  ∧ demoSanitize part_000 3 (Some (TSlice (TPtr demoItem), []))
      (DSlice [DPtr (Some (DStruct [DInt 0]))])
    = Ret None (DSlice [DPtr (Some (DStruct [DInt 1]))])
  ∧ DSlice [DPtr (Some (DStruct [DInt 1]))] ≠ DSlice [DPtr (Some (DStruct [DInt 0]))].
Proof. split_and!; [reflexivity | discriminate | vm_compute; reflexivity | discriminate]. Qed.

(** ** A slice or a map of structs at the root *)

Section root_containers.
Context {E : Externals}.
Variables (funcs : gmap string fieldSanFn) (s : Sanitizer).

Lemma getValue_not_ro o st t p a ro :
  getValue o st = Ret (Val t p a ro) st → ro = false.
Proof.
  destruct o as [[t0 p0]|]; [| done]. unfold getValue. simpl.
  destruct (_ || _); [| by intros [= _ _ _ <-]].
  unfold Value.Elem. destruct (rtype.Kind t0); try done;
    intros (d & st1 & _ & Hd)%bind_inv;
    destruct d as [| | | |[?|]| | |[[? ?]|]|]; try done;
    try destruct (rtype.Elem t0); try done; by injection Hd as _ _ _ <-.
Qed.

Lemma getValue_of_nil st : getValue None st = Ret ZeroValue st.
Proof. done. Qed.

Lemma iterable_loop_structs fuel (elemAt : nat → M Value) te keys st :
  rtype.Kind te = reflect.Struct →
  (∀ k, k ∈ keys → ∃ p a, elemAt k st = Ret (Val te p a false) st) →
  iterable_loop (Sanitize (S fuel) funcs s) elemAt None keys st = Ret None st.
Proof.
  intros Hte. induction keys as [|k keys IH]; intros Hat; [done |].
  cbn [iterable_loop]. unfold iterable_step. cbv [mbind M_bind].
  destruct (Hat k) as (p & a & ->); [left |].
  unfold Value.Interface. cbv beta iota.
  rewrite decide_False by (rewrite Hte; done). cbv [mret M_ret].
  rewrite Sanitize_struct_by_value by done. cbv beta iota.
  apply IH. intros k' Hk'. apply Hat. by right.
Qed.

Lemma Sanitize_unfold fuel o st :
  Sanitize (S fuel) funcs s o st =
  (r ← iterable (Sanitize fuel funcs s) o;
   match r.2 with
   | Some e => mret (Some e)
   | None =>
       vr ← isValid o;
       if vr.1 && negb r.1 then
         v ← Value.Elem (reflect_ValueOf o);
         sanitizeRec fuel funcs s v
       else mret None
   end) st.
Proof. reflexivity. Qed.

End root_containers.

(** C9.  A slice or a map whose elements are structs (not pointers to
    structs), given to [Sanitize] directly or by its address: [Sanitize]
    returns nil and the memory, hence every element, is as before.  Each
    element reaches the inner call of [Sanitize] by value, where it is not
    settable. *)
Theorem Sanitize_root_container_of_structs
    {E : Externals} (funcs : gmap string fieldSanFn) (s : Sanitizer) (fuel : nat)
    (o : iface) (tc te : rtype) (pc : path) (a ro : bool) (st : data) :
  getValue o st = Ret (Val tc pc a ro) st →
  rtype.Elem tc = Some te →
  rtype.Kind te = reflect.Struct →
  (rtype.Kind tc = reflect.Slice ∧ ∃ l, lookupPath st pc = Some (DSlice l))
  ∨ (rtype.Kind tc = reflect.Map ∧ ∃ m, lookupPath st pc = Some (DMap m)) →
  Sanitize (S (S fuel)) funcs s o st = Ret None st.
Proof.
  intros Hv He Hte Hshape.
  pose proof (getValue_not_ro _ _ _ _ _ _ Hv) as ->.
  assert (o ≠ None) as Ho by (by intros ->).
  assert (isValid o st = Ret (false, None) st) as Hvalid.
  { unfold isValid. fold (getValue o). cbv [mbind M_bind]. rewrite Hv.
    rewrite (bool_decide_eq_false_2 _ Ho). simpl.
    destruct Hshape as [[Hk _] | [Hk _]]; by rewrite Hk. }
  assert (iterable (Sanitize (S fuel) funcs s) o st = Ret (true, None) st) as Hiter.
  { unfold iterable. cbv [mbind M_bind]. rewrite Hv. unfold Value.Kind, Value.Len.
    destruct Hshape as [(Hk & l & Hl) | (Hk & m & Hl)]; rewrite Hk.
    - rewrite decide_True by done. cbv [mbind M_bind]. rewrite (load_run _ _ _ Hl).
      cbv [mret M_ret]. case_decide; [| done].
      erewrite iterable_loop_structs; [done | done |].
      intros k [_ Hlt]%elem_of_seq. unfold Value.Index. rewrite Hk.
      cbv [mbind M_bind]. rewrite (load_run _ _ _ Hl), He.
      rewrite decide_True by (simpl in Hlt; lia). by eexists _, _.
    - rewrite decide_False by done. rewrite decide_True by done.
      cbv [mbind M_bind]. rewrite (load_run _ _ _ Hl).
      cbv [mret M_ret]. case_decide; [| done].
      unfold Value.MapKeys. rewrite decide_True by done. cbv [mbind M_bind mret M_ret].
      rewrite (load_run _ _ _ Hl).
      erewrite iterable_loop_structs; [done | done |].
      intros k [_ Hlt]%elem_of_seq. unfold Value.MapIndex.
      rewrite decide_True by done.
      cbv [mbind M_bind]. rewrite (load_run _ _ _ Hl), He.
      rewrite decide_True by (simpl in Hlt; lia). by eexists _, _. }
  rewrite Sanitize_unfold. cbv [mbind M_bind]. rewrite Hiter. cbn [fst snd].
  by rewrite Hvalid.
Qed.

Lemma Sanitize_root_container_of_structs_witness :
  demoSanitize part_001 2 (Some (TSlice demoItem, []))
    (DSlice [DStruct [DInt 0]; DStruct [DInt 15]])
  = Ret None (DSlice [DStruct [DInt 0]; DStruct [DInt 15]]).
Proof.
  apply (@Sanitize_root_container_of_structs SpecExternals.externals
           (@fieldSanFns SpecExternals.externals part_001) demoSanitizer 0
           (Some (TSlice demoItem, [])) (TSlice demoItem) demoItem [] false false
           (DSlice [DStruct [DInt 0]; DStruct [DInt 15]])
           eq_refl eq_refl eq_refl).
  left. split; [reflexivity |]. by eexists.
Defined.

(** ** Where the code departs from what is claimed *)

(** The loop of [sanitizeInt32Field] leaves the function at the first nil
    pointer: what follows it in the slice is not looked at. *)
Lemma loop_stops_at_nil {E : Externals} d t q a ro rest st :
  rtype.Kind t = reflect.Ptr →
  lookupPath st q = Some (DPtr None) →
  d_hasDef d = false →
  sanitizeInt32Field_loop d (Val t q a ro :: rest) st = Ret None st.
Proof.
  intros Ht Hl Hdef. cbn [sanitizeInt32Field_loop]. unfold Value.Kind, Value.IsNil.
  rewrite Ht, Hdef. rewrite bool_decide_eq_true_2 by done.
  repeat first [ progress (cbv [mbind M_bind mret M_ret]; cbn [andb negb])
               | rewrite (load_run _ _ _ Hl)
               | rewrite bool_decide_eq_true_2 by done ].
  reflexivity.
Qed.

(** C7.  [type Seq struct { Xs []*int32 `san:"min=1"` }] with
    [Xs = {nil, &0}]: the first element is a nil pointer, and [Sanitize]
    returns nil with the second element still 0, below the minimum 1.
    Without the nil in front the same element is raised to 1. *)
Theorem Sanitize_skips_elements_after_nil (ver : accessor) :
  demoSanitize ver 3 (Some (TPtr demoSeq, []))
    (DPtr (Some (DStruct [DSlice [DPtr None; DPtr (Some (DInt 0))]])))
  = Ret None (DPtr (Some (DStruct [DSlice [DPtr None; DPtr (Some (DInt 0))]])))
  ∧ demoSanitize ver 3 (Some (TPtr demoSeq, []))
      (DPtr (Some (DStruct [DSlice [DPtr (Some (DInt 0)); DPtr (Some (DInt 0))]])))
    = Ret None (DPtr (Some (DStruct [DSlice [DPtr (Some (DInt 1)); DPtr (Some (DInt 1))]]))).
Proof. destruct ver; split; vm_compute; reflexivity. Qed.

(** C4.  [type Defaults struct { Xs []*int32 `san:"def=5"` }] with
    [Xs = {nil, nil}]: the first call of [Sanitize] sets the first element
    and returns, the second call sets the second element, so that the
    memory after two calls is not the memory after one. *)
Theorem Sanitize_twice_differs_from_once (ver : accessor) :
  demoSanitize ver 3 (Some (TPtr demoDefaults, []))
    (DPtr (Some (DStruct [DSlice [DPtr None; DPtr None]])))
  = Ret None (DPtr (Some (DStruct [DSlice [DPtr (Some (DInt 5)); DPtr None]])))
  ∧ demoSanitize ver 3 (Some (TPtr demoDefaults, []))
      (DPtr (Some (DStruct [DSlice [DPtr (Some (DInt 5)); DPtr None]])))
    = Ret None (DPtr (Some (DStruct [DSlice [DPtr (Some (DInt 5)); DPtr (Some (DInt 5))]])))
  ∧ DPtr (Some (DStruct [DSlice [DPtr (Some (DInt 5)); DPtr None]]))
    ≠ DPtr (Some (DStruct [DSlice [DPtr (Some (DInt 5)); DPtr (Some (DInt 5))]])).
Proof. destruct ver; split_and!; try (vm_compute; reflexivity); discriminate. Qed.

(** C6.  [type Index struct { Items map[string]Item }] with one entry
    whose [Count] is 0, below the minimum 1: the recursion reaches the
    struct through [MapIndex], which is not addressable, and the sanitizer
    of [Count] panics (in the accessor of the first variant, in [SetInt]
    with the second), so the field is never raised.  The same struct in a
    slice, [type Shelf struct { Items []Item }], is sanitized. *)
Theorem Sanitize_panics_on_map_of_structs :
  demoSanitize part_000 4 (Some (TPtr demoIndex, []))
    (DPtr (Some (DStruct [DMap [(DString "a", DStruct [DInt 0])]])))
  = Fail (GoPanic "reflect.Value.UnsafeAddr of unaddressable value")
  ∧ demoSanitize part_001 4 (Some (TPtr demoIndex, []))
      (DPtr (Some (DStruct [DMap [(DString "a", DStruct [DInt 0])]])))
    = Fail (GoPanic "reflect: setter using unaddressable value")
  ∧ ∀ ver, demoSanitize ver 4 (Some (TPtr demoShelf, []))
             (DPtr (Some (DStruct [DSlice [DStruct [DInt 0]]])))
           = Ret None (DPtr (Some (DStruct [DSlice [DStruct [DInt 1]]]))).
Proof. split_and!; [| | intros []]; vm_compute; reflexivity. Qed.

(** * Further properties *)

(** ** [sanitizeInt32Field] on a field of type [int32], any directives *)

Section int32_bounds.
Context {E : Externals} {PO : ParserOk E} (ver : accessor).

Lemma int32_field_bounds s T p ro idx sf v st st' :
  rtype.Kind T = reflect.Struct →
  rtype.Field T idx = Some sf →
  sfType sf = tInt32 →
  lookupPath st (p ++ [SField idx]) = Some (DInt v) →
  inInt32 v →
  sanitizeInt32Field ver s (Val T p true ro) idx st = Ret None st' →
  ∃ d, parsed (fieldTags s (sfTag sf)) d
       ∧ ¬ badDirectives (fieldTags s (sfTag sf))
       ∧ updatePath st (p ++ [SField idx]) (DInt (applyBounds d v)) = Some st'.
Proof.
  intros HT Hf Hty Hl Hv Hrun.
  apply bind_inv in Hrun as (x & st1 & Ht & Hrun).
  rewrite (targets_int32 ver s T p ro idx sf st HT Hf Hty) in Ht.
  injection Ht as <- <-.
  apply bind_inv in Hrun as (r & st1 & Hd & Hrun).
  apply directives_inv in Hd as [-> Hr]. destruct r as [e|d]; [done |].
  destruct Hr as [Hp Hgood]. pose proof (parsed_range _ _ Hp) as (Hrmin & Hrmax & _).
  destruct (loop_int32 d (p ++ [SField idx]) v st) as (st2 & Hloop & Hu); [done.. |].
  rewrite Hloop in Hrun. injection Hrun as <-. by exists d.
Qed.


End int32_bounds.





(** ** [sanitizeInt32Field] on a pointer that is not nil *)

Section int32_pointee.
Context {E : Externals} {PO : ParserOk E} (ver : accessor).


Lemma lookupPath_snoc_ptr st q x :
  lookupPath st (q ++ [SDeref]) = Some x → lookupPath st q = Some (DPtr (Some x)).
Proof.
  rewrite lookupPath_app. destruct (lookupPath st q) as [c|]; [| done]. simpl.
  destruct c as [| | | |[y|]| | | |]; try done. destruct (child _ _) eqn:?; simpl in *;
    congruence.
Qed.


End int32_pointee.



(** ** [sanitizeInt32Field] on a slice of values *)

Lemma updatePath_snoc st q s c x st1 :
  lookupPath st q = Some c →
  updatePath st (q ++ [s]) x = Some st1 →
  updatePath st q (setChild c s x) = Some st1.
Proof.
  revert st st1. induction q as [|s0 q IH]; intros st st1; simpl.
  - intros [= ->]. destruct (child c s); simpl; [| done]. done.
  - destruct (child st s0) as [c0|]; simpl; [| done]. intros Hl.
    destruct (updatePath c0 (q ++ [s]) x) as [c1|] eqn:Hu; simpl; [| done].
    intros [= <-]. by rewrite (IH _ _ Hl Hu).
Qed.

Section int32_slice.
Context {E : Externals} {PO : ParserOk E} (ver : accessor).

Lemma collect_Index q l keys st :
  lookupPath st q = Some (DSlice l) →
  Forall (λ k, k < length l) keys →
  collect (Value.Index (Val (TSlice tInt32) q true false)) keys st
  = Ret (elemView q <$> keys) st.
Proof.
  intros Hl. induction 1 as [|k keys Hk _ IH]; [done |].
  cbn [collect]. cbv [mbind M_bind]. unfold Value.Index at 1. simpl.
  cbv [mbind M_bind]. rewrite (load_run _ _ _ Hl). simpl.
  rewrite decide_True by done. cbv [mret M_ret]. by rewrite IH.
Qed.

Lemma targets_slice s T p ro idx sf l st :
  rtype.Kind T = reflect.Struct →
  rtype.Field T idx = Some sf →
  sfType sf = TSlice tInt32 →
  lookupPath st (p ++ [SField idx]) = Some (DSlice l) →
  sanitizeInt32Field_targets ver s (Val T p true ro) idx st =
  Ret (Val (TSlice tInt32) (p ++ [SField idx]) true false, fieldTags s (sfTag sf),
       elemView (p ++ [SField idx]) <$> seq 0 (length l)) st.
Proof.
  intros HT Hf Hty Hl.
  assert (collect (Value.Index (Val (TSlice tInt32) (p ++ [SField idx]) true false))
            (seq 0 (length l)) st
          = Ret (elemView (p ++ [SField idx]) <$> seq 0 (length l)) st) as Hc.
  { apply (collect_Index _ l); [done |]. apply Forall_forall. intros k Hk.
    apply elem_of_seq in Hk. lia. }
  unfold sanitizeInt32Field_targets, Value.Field.
  rewrite decide_True by done. rewrite Hf, Hty.
  destruct ver; simpl; unfold Part001.GetUnexportedField; simpl;
    cbv [mbind M_bind mret M_ret]; simpl; rewrite ?Hf; simpl;
    cbv [mbind M_bind mret M_ret]; rewrite (load_run _ _ _ Hl);
    unfold reflect_NewAt_Elem; by rewrite Hc.
Qed.

(** One round of the loop on a value that is no pointer. *)
Lemma loop_value_round d q v rest st :
  lookupPath st q = Some (DInt v) →
  inInt32 v → inInt32 (d_min d) → inInt32 (d_max d) →
  ∃ st1, updatePath st q (DInt (applyBounds d v)) = Some st1
         ∧ sanitizeInt32Field_loop d (Val tInt32 q true false :: rest) st
           = sanitizeInt32Field_loop d rest st1.
Proof.
  intros Hl Hv Hmin Hmax. unfold applyBounds.
  set (v1 := if d_hasMin d && bool_decide (d_min d > v)%Z then d_min d else v).
  destruct (bound_run (d_hasMin d) (d_min d) (λ n, d_min d > n)%Z q v st)
    as (st1 & Hrun1 & Hu1); [done.. |]. fold v1 in Hu1.
  pose proof (updatePath_lookup _ _ _ _ Hu1) as Hl1.
  assert (inInt32 v1) as Hv1 by (subst v1; by destruct (_ && _)).
  destruct (bound_run (d_hasMax d) (d_max d) (λ n, d_max d < n)%Z q v1 st1)
    as (st2 & Hrun2 & Hu2); [done.. |].
  exists st2. split; [by eapply updatePath_twice |].
  rewrite loop_value by done. cbv [mbind M_bind] in *.
  by rewrite Hrun1, Hrun2.
Qed.

Lemma loop_values d q (finished todo : list Z) st :
  lookupPath st q = Some (DSlice (DInt <$> (finished ++ todo))) →
  Forall inInt32 todo → inInt32 (d_min d) → inInt32 (d_max d) →
  ∃ st', sanitizeInt32Field_loop d
           (elemView q <$> seq (length finished) (length todo)) st = Ret None st'
         ∧ updatePath st q (DSlice (DInt <$> (finished ++ (applyBounds d <$> todo))))
           = Some st'.
Proof.
  intros Hl Htodo Hmin Hmax. revert finished st Hl.
  induction Htodo as [|v todo Hv _ IH]; intros finished st Hl.
  - exists st. split; [done |]. by apply updatePath_id.
  - cbn [length seq fmap list_fmap]. unfold elemView at 1.
    assert (lookupPath st (q ++ [SIndex (length finished)]) = Some (DInt v)) as Hlv.
    { rewrite lookupPath_app, Hl. simpl. rewrite list_lookup_fmap.
      by rewrite list_lookup_middle. }
    destruct (loop_value_round d _ v
                (elemView q <$> seq (S (length finished)) (length todo)) st Hlv)
      as (st1 & Hu1 & ->); [done.. |].
    pose proof (updatePath_snoc _ _ _ _ _ _ Hl Hu1) as Hu1'. simpl in Hu1'.
    assert (<[length finished := DInt (applyBounds d v)]> (DInt <$> (finished ++ v :: todo))
            = DInt <$> ((finished ++ [applyBounds d v]) ++ todo)) as Heq.
    { rewrite <- list_fmap_insert. f_equal.
      rewrite <- (Nat.add_0_r (length finished)). rewrite insert_app_r. simpl.
      by rewrite <- app_assoc. }
    rewrite Heq in Hu1'.
    destruct (IH (finished ++ [applyBounds d v]) st1) as (st' & Hloop & Hu).
    { by apply updatePath_lookup in Hu1'. }
    rewrite length_app in Hloop. simpl in Hloop.
    rewrite Nat.add_1_r in Hloop. exists st'. split; [done |].
    rewrite <- app_assoc in Hu. simpl in Hu. by eapply updatePath_twice.
Qed.

End int32_slice.

(** X4.  [sanitizeInt32Field] on a field of type [[]int32] with [min=a]
    and [max=b], [0 <= a <= b]: when it returns nil, every element of the
    slice has been clamped, and the slice has its length. *)
Theorem sanitizeInt32Field_clamps_every_value
    {E : Externals} (ver : accessor) (s : Sanitizer) (T : rtype) (p : path) (ro : bool)
    (idx : nat) (sf : StructField rtype) (a b : Z) (vs : list Z) (st st' : data) :
  ParserOk E →
  rtype.Kind T = reflect.Struct →
  rtype.Field T idx = Some sf → sfType sf = TSlice tInt32 →
  tagInt (fieldTags s (sfTag sf)) "min" = Some a →
  tagInt (fieldTags s (sfTag sf)) "max" = Some b →
  (0 ≤ a ≤ b)%Z →
  lookupPath st (p ++ [SField idx]) = Some (DSlice (DInt <$> vs)) →
  Forall inInt32 vs →
  sanitizeInt32Field ver s (Val T p true ro) idx st = Ret None st' →
  lookupPath st' (p ++ [SField idx]) = Some (DSlice (DInt <$> ((λ v, clamp v a b) <$> vs))).
Proof.
  intros HPO HT Hf Hty Hmin Hmax Hab Hl Hvs Hrun.
  apply bind_inv in Hrun as (x & st1 & Ht & Hrun).
  rewrite (targets_slice ver s T p ro idx sf _ st HT Hf Hty Hl) in Ht.
  injection Ht as <- <-.
  apply bind_inv in Hrun as (r & st1 & Hd & Hrun).
  apply directives_inv in Hd as [-> Hr]. destruct r as [e|d]; [done |].
  destruct Hr as [Hp _]. pose proof (parsed_range _ _ Hp) as (Hrmin & Hrmax & _).
  destruct (loop_values d (p ++ [SField idx]) [] vs st) as (st2 & Hloop & Hu); [done.. |].
  simpl in Hloop, Hu. rewrite length_fmap in Hrun. rewrite Hloop in Hrun.
  injection Hrun as <-. apply updatePath_lookup in Hu. rewrite Hu. do 3 f_equal.
  destruct Hp as (HhasMin & HhasMax & _ & Hdmin & Hdmax & _).
  rewrite (parsed_has _ d _ _ Hmin) in HhasMin.
  rewrite (parsed_has _ d _ _ Hmax) in HhasMax.
  rewrite HhasMin in Hdmin. rewrite HhasMax in Hdmax.
  apply list_fmap_ext. intros _ v _.
  apply applyBounds_clamp; [done | congruence | done | congruence | lia].
Qed.

Lemma sanitizeInt32Field_clamps_every_value_witness :
  lookupPath (DPtr (Some (DStruct [DSlice [DInt 1; DInt 5; DInt 10]]))) [SDeref; SField 0]
  = Some (DSlice (DInt <$> ((λ v, clamp v 1 10) <$> [0; 5; 99]%Z))).
Proof.
  apply (@sanitizeInt32Field_clamps_every_value SpecExternals.externals part_000
           demoSanitizer demoBatch [SDeref] false 0
           (mkStructField "Sizes" (TSlice tInt32) [("san", "min=1,max=10")] true) 1 10
           [0; 5; 99]%Z
           (DPtr (Some (DStruct [DSlice [DInt 0; DInt 5; DInt 99]])))
           (DPtr (Some (DStruct [DSlice [DInt 1; DInt 5; DInt 10]])))
           spec_parser_ok eq_refl eq_refl eq_refl
           ltac:(vm_compute; reflexivity) ltac:(vm_compute; reflexivity)
           ltac:(lia) eq_refl
           ltac:(repeat constructor; unfold inInt32; lia)
           ltac:(vm_compute; reflexivity)).
Defined.

(** ** A second call of [Sanitize] *)

Section second_call.
Context {E : Externals} {PO : ParserOk E} (ver : accessor).

Lemma parsed_unique tags d d' : parsed tags d → parsed tags d' → d = d'.
Proof.
  destruct d as [hmin vmin hmax vmax hdef vdef], d' as [hmin' vmin' hmax' vmax' hdef' vdef'].
  unfold parsed. simpl.
  intros (-> & -> & -> & H1 & H2 & H3) (-> & -> & -> & H1' & H2' & H3').
  f_equal.
  - destruct (hasKey tags "min"); congruence.
  - destruct (hasKey tags "max"); congruence.
  - destruct (hasKey tags "def"); congruence.
Qed.

Lemma applyBounds_again tags d v :
  parsed tags d → ¬ badDirectives tags →
  applyBounds d (applyBounds d v) = applyBounds d v.
Proof.
  intros (_ & _ & _ & Hmin & Hmax & _) Hgood.
  assert (d_hasMin d = true → d_hasMax d = true → (d_min d ≤ d_max d)%Z) as Hle.
  { intros H1 H2. rewrite H1 in Hmin. rewrite H2 in Hmax.
    destruct (decide (d_max d < d_min d)%Z); [| lia].
    destruct Hgood. left. by exists (d_min d), (d_max d). }
  unfold applyBounds. destruct (d_hasMin d), (d_hasMax d); simpl;
    repeat case_bool_decide; try lia. all: specialize (Hle eq_refl eq_refl); lia.
Qed.

Lemma directives_any_memory tags fieldValue st r st1 st2 :
  sanitizeInt32Field_directives tags fieldValue st = Ret r st1 →
  sanitizeInt32Field_directives tags fieldValue st2 = Ret r st2.
Proof.
  unfold sanitizeInt32Field_directives.
  repeat match goal with
  | |- context [match ?x with _ => _ end] => destruct x
  end; destruct fieldValue; try done; by intros [= <- _].
Qed.

(** A round on a field of type [int32] that returned nil once returns
    nil from any memory in which the field holds a number. *)
Lemma int32_field_again s T p ro idx sf st0 st0' w st :
  rtype.Kind T = reflect.Struct →
  rtype.Field T idx = Some sf →
  sfType sf = tInt32 →
  sanitizeInt32Field ver s (Val T p true ro) idx st0 = Ret None st0' →
  lookupPath st (p ++ [SField idx]) = Some (DInt w) →
  inInt32 w →
  ∃ d st', parsed (fieldTags s (sfTag sf)) d
           ∧ ¬ badDirectives (fieldTags s (sfTag sf))
           ∧ sanitizeInt32Field ver s (Val T p true ro) idx st = Ret None st'
           ∧ updatePath st (p ++ [SField idx]) (DInt (applyBounds d w)) = Some st'.
Proof.
  intros HT Hf Hty Hrun Hl Hw.
  apply bind_inv in Hrun as (x & st1 & Ht & Hrun).
  rewrite (targets_int32 ver s T p ro idx sf st0 HT Hf Hty) in Ht.
  injection Ht as <- <-.
  apply bind_inv in Hrun as (r & st1 & Hd & Hrun).
  pose proof (directives_any_memory _ _ _ _ _ st Hd) as Hd'.
  apply directives_inv in Hd as [-> Hr]. destruct r as [e|d]; [done |].
  destruct Hr as [Hp Hgood]. pose proof (parsed_range _ _ Hp) as (Hrmin & Hrmax & _).
  destruct (loop_int32 d (p ++ [SField idx]) w st) as (st' & Hloop & Hu); [done.. |].
  exists d, st'. split_and!; [done | done | | done].
  unfold sanitizeInt32Field. cbv [mbind M_bind].
  rewrite (targets_int32 ver s T p ro idx sf st HT Hf Hty).
  cbv [mbind M_bind]. by rewrite Hd'.
Qed.

End second_call.

(** X5.  A struct all of whose fields are of type [int32]: once [Sanitize]
    has returned nil on its address, a second call returns nil and leaves
    the memory as the first call left it. *)
Theorem Sanitize_twice_on_int32_fields
    {E : Externals} (ver : accessor) (fuel : nat) (s : Sanitizer) (t T : rtype)
    (p0 : path) (vs : list Z) (st st1 : data) :
  ParserOk E → SanitizersLocal E →
  rtype.Kind t = reflect.Ptr → rtype.Elem t = Some T → rtype.Kind T = reflect.Struct →
  Forall (λ sf, sfType sf = tInt32) (rtype.fields T) →
  lookupPath st (p0 ++ [SDeref]) = Some (DStruct (DInt <$> vs)) →
  length vs = rtype.NumField T →
  Forall inInt32 vs →
  Sanitize fuel (fieldSanFns ver) s (Some (t, p0)) st = Ret None st1 →
  Sanitize fuel (fieldSanFns ver) s (Some (t, p0)) st1 = Ret None st1.
Proof.
  intros HPO SL Ht He HT Hfields Hl Hlen Hvs Hrun.
  assert (∃ ds, lookupPath st p0 = Some (DPtr (Some ds))) as [ds Hds].
  { by apply lookupPath_snoc_ptr in Hl; eauto. }
  destruct fuel as [|[|fuel]]; [done | |].
  { erewrite Sanitize_root in Hrun by done. done. }
  (* every field, after the first call *)
  assert (∀ idx, idx < rtype.NumField T →
    ∃ w, lookupPath st1 (p0 ++ [SDeref; SField idx]) = Some (DInt w) ∧ inInt32 w
         ∧ sanitizeRec_body (sanitizeRec fuel (fieldSanFns ver) s) (fieldSanFns ver) s
             (Val T (p0 ++ [SDeref]) true false) idx st1 = Ret None st1) as Hround.
  { intros idx Hidx.
    destruct (lookup_lt_is_Some_2 (rtype.fields T) idx Hidx) as [sf Hsf].
    assert (sfType sf = tInt32) as Hty.
    { rewrite Forall_forall in Hfields. apply Hfields. by eapply list_elem_of_lookup_2. }
    destruct (lookup_lt_is_Some_2 vs idx) as [v Hv]; [lia |].
    assert (inInt32 v) as Hvr.
    { rewrite Forall_forall in Hvs. apply Hvs. by eapply list_elem_of_lookup_2. }
    assert (lookupPath st (p0 ++ [SDeref; SField idx]) = Some (DInt v)) as Hlv.
    { replace (p0 ++ [SDeref; SField idx]) with ((p0 ++ [SDeref]) ++ [SField idx])
        by (by rewrite <- app_assoc).
      rewrite lookupPath_app, Hl. simpl. by rewrite list_lookup_fmap, Hv. }
    destruct (Sanitize_ok_rounds ver s t T p0 idx sf Ht He HT Hsf SL _ st st1 _ Hlv Hrun)
      as (fuel' & sta & stb & Ha & Hb & Hc).
    erewrite body_int32 in Hb by done. rewrite Hlv in Ha.
    replace (p0 ++ [SDeref; SField idx]) with ((p0 ++ [SDeref]) ++ [SField idx]) in *
      by (by rewrite <- app_assoc).
    destruct (int32_field_bounds ver s T (p0 ++ [SDeref]) false idx sf v sta stb)
      as (d & Hp & Hgood & Hu); [done.. |].
    apply updatePath_lookup in Hu. rewrite <- Hc in Hu.
    exists (applyBounds d v). split_and!; [done | |].
    { pose proof (parsed_range _ _ Hp) as (? & ? & _).
      unfold applyBounds. by repeat destruct (_ && _). }
    erewrite body_int32 by done.
    destruct (int32_field_again ver s T (p0 ++ [SDeref]) false idx sf sta stb
                (applyBounds d v) st1) as (d' & st' & Hp' & _ & Hrun' & Hu'); [done.. | |].
    { pose proof (parsed_range _ _ Hp) as (? & ? & _).
      unfold applyBounds. by repeat destruct (_ && _). }
    rewrite Hrun'. f_equal.
    rewrite <- (parsed_unique _ _ _ Hp Hp') in Hu'.
    rewrite (applyBounds_again _ _ _ Hp Hgood) in Hu'.
    rewrite (updatePath_id _ _ _ Hu) in Hu'. congruence. }
  (* the second call *)
  destruct (decide (rtype.NumField T = 0)) as [Hzero | Hpos].
  { erewrite Sanitize_root in Hrun by done. rewrite sanitizeRec_fields in Hrun by done.
    rewrite Hzero in Hrun. simpl in Hrun. injection Hrun as <-.
    erewrite Sanitize_root by done. rewrite sanitizeRec_fields by done.
    by rewrite Hzero. }
  destruct (Hround 0) as (w & Hw & _); [lia |].
  destruct (root_pointee p0 0 _ _ Hw) as [ds1 Hds1].
  erewrite Sanitize_root by done. rewrite sanitizeRec_fields by done.
  apply forEach_skips. intros idx [_ Hidx]%elem_of_seq. simpl in Hidx.
  by destruct (Hround idx Hidx) as (w' & _ & _ & ->).
Qed.

Lemma Sanitize_twice_on_int32_fields_witness :
  demoSanitize part_000 2 (Some (TPtr demoBox, [])) (DPtr (Some (DStruct [DInt 0; DInt 9])))
  = Ret None (DPtr (Some (DStruct [DInt 1; DInt 5])))
  ∧ demoSanitize part_000 2 (Some (TPtr demoBox, [])) (DPtr (Some (DStruct [DInt 1; DInt 5])))
    = Ret None (DPtr (Some (DStruct [DInt 1; DInt 5]))).
Proof.
  split; [vm_compute; reflexivity |].
  apply (@Sanitize_twice_on_int32_fields SpecExternals.externals part_000 2 demoSanitizer
           (TPtr demoBox) demoBox [] [0; 9]%Z
           (DPtr (Some (DStruct [DInt 0; DInt 9])))
           (DPtr (Some (DStruct [DInt 1; DInt 5])))
           spec_parser_ok spec_sanitizers_local eq_refl eq_refl eq_refl
           ltac:(repeat constructor) eq_refl eq_refl
           ltac:(repeat constructor; unfold inInt32; lia)
           ltac:(vm_compute; reflexivity)).
Defined.

(** ** Directives that do not parse *)

Section parse_failure.
Context {E : Externals} (ver : accessor).

Lemma hasKey_present tags k text : tags !! k = Some text → hasKey tags k = true.
Proof. unfold hasKey. by intros ->. Qed.

Lemma tagOf_present tags k text : tags !! k = Some text → tagOf tags k = text.
Proof. unfold tagOf. by intros ->. Qed.

Lemma directives_min_unparsed tags fieldValue text e st :
  tags !! "min" = Some text → parseInt32 text = inl e →
  sanitizeInt32Field_directives tags fieldValue st = Ret (inl e) st.
Proof.
  intros Hk Hp. unfold sanitizeInt32Field_directives.
  by rewrite (hasKey_present _ _ _ Hk), (tagOf_present _ _ _ Hk), Hp.
Qed.

Lemma directives_max_unparsed tags fieldValue text e st :
  tags !! "min" = None ∨ (∃ a, tagInt tags "min" = Some a) →
  tags !! "max" = Some text → parseInt32 text = inl e →
  sanitizeInt32Field_directives tags fieldValue st = Ret (inl e) st.
Proof.
  intros Hmin Hk Hp. unfold sanitizeInt32Field_directives.
  rewrite (hasKey_present _ _ _ Hk), (tagOf_present _ _ _ Hk), Hp.
  destruct Hmin as [Hnone | [a Ha]].
  - by rewrite (tagInt_None_absent _ _ Hnone).
  - apply tagInt_Some in Ha as [-> ->]. done.
Qed.

End parse_failure.

(** X6.  A directive [min] whose text [parseInt32] refuses makes
    [sanitizeInt32Field] return the error of [parseInt32], whatever the other
    directives are and whatever the shape of the field; so does a
    directive [max], when [min] is absent or parses.  Nothing is
    written. *)
Theorem sanitizeInt32Field_returns_parse_error
    {E : Externals} (ver : accessor) (s : Sanitizer) (T : rtype) (p : path) (a ro : bool)
    (idx : nat) (sf : StructField rtype) (text : string) (e : err) (r : error)
    (st st' : data) :
  rtype.Field T idx = Some sf →
  parseInt32 text = inl e →
  fieldTags s (sfTag sf) !! "min" = Some text
  ∨ ((fieldTags s (sfTag sf) !! "min" = None
      ∨ ∃ n, tagInt (fieldTags s (sfTag sf)) "min" = Some n)
     ∧ fieldTags s (sfTag sf) !! "max" = Some text) →
  sanitizeInt32Field ver s (Val T p a ro) idx st = Ret r st' →
  r = Some e ∧ st' = st.
Proof.
  intros Hsf Hp Htags Hrun.
  apply bind_inv in Hrun as (x & st1 & Ht & Hrun).
  apply reads_targets_tags in Ht
    as (-> & t' & p' & a' & ro' & sf' & [= <- <- <- <-] & Hsf' & Hx).
  rewrite Hsf in Hsf'. injection Hsf' as <-.
  destruct x as [[fv tags] fields]. simpl in Hx. subst tags.
  apply bind_inv in Hrun as (res & st1 & Hd & Hrun).
  assert (sanitizeInt32Field_directives (fieldTags s (sfTag sf)) fv st = Ret (inl e) st) as Hd'.
  { destruct Htags as [Hmin | [Hmin Hmax]].
    - by eapply directives_min_unparsed.
    - by eapply directives_max_unparsed. }
  rewrite Hd' in Hd. injection Hd as <- <-.
  by apply ret_inv in Hrun as [-> ->].
Qed.

Lemma sanitizeInt32Field_returns_parse_error_witness :
  @sanitizeInt32Field SpecExternals.externals part_000 demoSanitizer
    (Val demoTypo [SDeref] true false) 0 (DPtr (Some (DStruct [DInt 4])))
  = Ret (Some (ErrParse "one")) (DPtr (Some (DStruct [DInt 4])))
  ∧ (Some (ErrParse "one") = Some (ErrParse "one")
     ∧ DPtr (Some (DStruct [DInt 4])) = DPtr (Some (DStruct [DInt 4]))).
Proof.
  split; [vm_compute; reflexivity |].
  apply (@sanitizeInt32Field_returns_parse_error SpecExternals.externals part_000
           demoSanitizer demoTypo [SDeref] true false 0
           (mkStructField "N" tInt32 [("san", "min=one,max=-3")] true) "one"
           (ErrParse "one") (Some (ErrParse "one"))
           (DPtr (Some (DStruct [DInt 4]))) (DPtr (Some (DStruct [DInt 4])))
           eq_refl ltac:(vm_compute; reflexivity)
           ltac:(left; vm_compute; reflexivity) ltac:(vm_compute; reflexivity)).
Defined.

(** ** [Sanitize] writes at or below its argument *)

Section sanitize_local.
Context {E : Externals}.
Variables (funcs : gmap string fieldSanFn) (s : Sanitizer).
Hypothesis Hfuncs : localTable funcs.
Hypothesis Hslice : localSan sanitizeSliceField.

Lemma reads_getValue (o : iface) q : rooted q o → reads (getValue o) (under q).
Proof.
  intros Ho. unfold getValue. destruct o as [[t p]|]; unfold reflect_ValueOf.
  - destruct Ho as [r ->].
    destruct (_ || _).
    + eapply reads_mono; [apply reads_Elem |]. intros w Hw. by apply under_app in Hw.
    + apply reads_ret. right. by exists r.
  - apply reads_ret. by left.
Qed.

Lemma reads_Interface v q :
  under q v → reads (Value.Interface v) (rooted q).
Proof.
  intros Hv. destruct v as [|t p a ro]; [apply reads_panic |]. simpl.
  destruct Hv as [? | [r Hr]]; [done |]. simpl in Hr. subst p.
  destruct ro; [apply reads_panic |]. case_decide.
  - eapply reads_bind; [apply reads_load |]. intros d _.
    destruct d as [| | | | | | |[[e x]|]|]; try apply reads_fail; apply reads_ret; [| done].
    exists (r ++ [SDyn]). by rewrite app_assoc.
  - apply reads_ret. by exists r.
Qed.

Lemma reads_eqZeroOfType o : reads (eqZeroOfType o) (λ _, True).
Proof.
  destruct o as [[t p]|]; [| apply reads_panic]. unfold eqZeroOfType.
  eapply reads_bind; [apply reads_load |]. intros d _.
  destruct (rtype.Kind t), d; simpl;
    try apply reads_panic; try apply reads_fail; by apply reads_ret.
Qed.

Lemma reads_isValid o : reads (isValid o) (λ _, True).
Proof.
  unfold isValid.
  eapply reads_bind with (P := λ _, True).
  { destruct (_ || _); [| by apply reads_ret].
    eapply reads_mono; [apply reads_Elem | done]. }
  intros value _. case_bool_decide; [by apply reads_ret |].
  destruct (negb (bool_decide _)); [by apply reads_ret |].
  eapply reads_bind with (P := λ _, True).
  { destruct (negb _); [by apply reads_ret | apply reads_eqZeroOfType]. }
  intros [] _; by apply reads_ret.
Qed.

Lemma spec_iterable_loop q (San : iface → M error) (elemAt : nat → M Value) keys err0 :
  (∀ o : iface, rooted q o → spec q (San o) (λ _, True)) →
  (∀ k, reads (elemAt k) (under q)) →
  spec q (iterable_loop San elemAt err0 keys) (λ _, True).
Proof.
  intros HSan Hat. revert err0. induction keys as [|k keys IH]; intros err0; simpl.
  - by apply spec_ret.
  - eapply spec_bind with (P := λ _, True); [| intros ? _; apply IH].
    unfold iterable_step.
    eapply spec_bind; [apply spec_reads, Hat |]. intros w Hw.
    eapply spec_bind; [apply spec_reads, reads_Interface, Hw |]. intros o Ho.
    eapply spec_bind; [by apply HSan |]. intros iErr _.
    destruct err0, iErr; try apply spec_panic; by apply spec_ret.
Qed.

Lemma spec_iterable q (San : iface → M error) o :
  (∀ o : iface, rooted q o → spec q (San o) (λ _, True)) →
  rooted q o →
  spec q (iterable San o) (λ _, True).
Proof.
  intros HSan Ho. unfold iterable.
  eapply spec_bind; [apply spec_reads, reads_getValue, Ho |]. intros value Hvalue.
  assert (∀ k, reads (Value.Index value k) (under q)) as Hindex.
  { intros k. destruct value as [|tv pv av rov] eqn:Heq; [apply reads_panic |].
    eapply reads_mono; [apply reads_Index |]. intros w Hw. by eapply under_trans. }
  assert (∀ k, reads (Value.MapIndex value k) (under q)) as Hmap.
  { intros k. destruct value as [|tv pv av rov] eqn:Heq; [apply reads_panic |].
    eapply reads_mono; [apply reads_MapIndex |]. intros w Hw. by eapply under_trans. }
  case_decide; [| case_decide]; [| | by apply spec_ret].
  - eapply spec_bind; [apply spec_reads, reads_Len |]. intros n _.
    eapply spec_bind with (P := λ _, True); [| intros ? _; by apply spec_ret].
    case_decide; [| by apply spec_ret]. by apply spec_iterable_loop.
  - eapply spec_bind; [apply spec_reads, reads_Len |]. intros n _.
    eapply spec_bind with (P := λ _, True); [| intros ? _; by apply spec_ret].
    case_decide; [| by apply spec_ret].
    eapply spec_bind; [apply spec_reads, reads_MapKeys |]. intros keys _.
    by apply spec_iterable_loop.
Qed.

Lemma spec_Sanitize fuel q o :
  rooted q o → spec q (Sanitize fuel funcs s o) (λ _, True).
Proof.
  revert o. induction fuel as [|fuel IH]; intros o Ho; simpl; [apply spec_fail |].
  eapply spec_bind; [by apply spec_iterable |]. intros r _.
  destruct r.2; [by apply spec_ret |].
  eapply spec_bind; [apply spec_reads, reads_isValid |]. intros vr _.
  destruct (_ && _); [| by apply spec_ret].
  eapply spec_bind with (P := under q).
  { apply spec_reads. destruct o as [[t p]|]; unfold reflect_ValueOf; [| apply reads_panic].
    destruct Ho as [r' ->].
    eapply reads_mono; [apply reads_Elem |]. intros w Hw. by apply under_app in Hw. }
  intros v Hv. by apply spec_sanitizeRec.
Qed.

End sanitize_local.

(** X7.  Whatever [Sanitize] is given (a pointer to a struct, a slice or a
    map of such pointers, anything else) and whatever it returns, what it
    has written lies at or below its argument: a node of the memory that is
    neither above nor below the argument holds what it held before.  The
    field sanitizers that are not in the source files are assumed to write
    to their own field only. *)
Theorem Sanitize_writes_below_its_argument
    {E : Externals} (ver : accessor) (fuel : nat) (s : Sanitizer) (t : rtype)
    (p0 q : path) (e : error) (st st' : data) :
  SanitizersLocal E →
  diverge p0 q →
  Sanitize fuel (fieldSanFns ver) s (Some (t, p0)) st = Ret e st' →
  lookupPath st' q = lookupPath st q.
Proof.
  intros HE Hq Hrun.
  assert (localSan sanitizeSliceField) as Hslice.
  { unfold SanitizersLocal, externalSans in HE. by apply Forall_cons in HE as [? _]. }
  eapply (spec_Sanitize (fieldSanFns ver) s (fieldSanFns_local ver HE) Hslice fuel p0)
    in Hrun as [Hframe _]; [by apply Hframe |].
  exists []. by rewrite app_nil_r.
Qed.

Lemma Sanitize_writes_below_its_argument_witness :
  demoSanitize part_001 3 (Some (TPtr demoItem, [SField 0]))
    (DStruct [DPtr (Some (DStruct [DInt 0])); DPtr (Some (DStruct [DInt 0]))])
  = Ret None (DStruct [DPtr (Some (DStruct [DInt 1])); DPtr (Some (DStruct [DInt 0]))])
  ∧ lookupPath (DStruct [DPtr (Some (DStruct [DInt 1])); DPtr (Some (DStruct [DInt 0]))])
      [SField 1; SDeref; SField 0]
    = lookupPath (DStruct [DPtr (Some (DStruct [DInt 0])); DPtr (Some (DStruct [DInt 0]))])
        [SField 1; SDeref; SField 0].
Proof.
  split; [vm_compute; reflexivity |].
  apply (@Sanitize_writes_below_its_argument SpecExternals.externals part_001 3
           demoSanitizer (TPtr demoItem) [SField 0] [SField 1; SDeref; SField 0] None
           (DStruct [DPtr (Some (DStruct [DInt 0])); DPtr (Some (DStruct [DInt 0]))])
           (DStruct [DPtr (Some (DStruct [DInt 1])); DPtr (Some (DStruct [DInt 0]))])
           spec_sanitizers_local).
  - exists [], (SField 0), (SField 1), [], [SDeref; SField 0]. by split_and!.
  - vm_compute; reflexivity.
Defined.

(** ** The table of field sanitizers: registration and lookup *)

Lemma reads_getValue_any o : reads (getValue o) (λ _, True).
Proof.
  unfold getValue. destruct (_ || _); [| by apply reads_ret].
  eapply reads_mono; [apply reads_Elem | done].
Qed.

(** The name under which [RegisterSanitizer] and [GetSanitizeByType] file
    the example [o]. *)
Lemma RegisterSanitizer_inv funcs o f st funcs' st' :
  RegisterSanitizer funcs o f st = Ret funcs' st' →
  ∃ v t, st' = st ∧ getValue o st = Ret v st ∧ Value.Type_ v st = Ret t st
         ∧ funcs' = <[rtype.String t := f]> funcs.
Proof.
  intros (v & st1 & Hv & Hrun)%bind_inv.
  pose proof Hv as [-> _]%reads_getValue_any.
  apply bind_inv in Hrun as (t & st1 & Ht & Hrun).
  pose proof Ht as [-> _]%reads_Type.
  apply ret_inv in Hrun as [-> ->]. by exists v, t.
Qed.

Lemma GetSanitizeByType_run funcs o v t st :
  getValue o st = Ret v st → Value.Type_ v st = Ret t st →
  GetSanitizeByType funcs o st =
  Ret (match funcs !! rtype.String t with
       | Some function => inr function
       | None => inl (ErrSanitizerNotFound (rtype.String t))
       end) st.
Proof.
  intros Hv Ht. unfold GetSanitizeByType. cbv [mbind M_bind]. rewrite Hv, Ht.
  by destruct (funcs !! rtype.String t).
Qed.

(** X8.  After [RegisterSanitizer] has filed [function] under the example
    [sanType], [GetSanitizeByType] with the same example returns [function]
    and no error; with any other example it returns [function] too (the
    type of that example, once a pointer is followed, has the same name) or
    what it returned before the registration.  [RegisterSanitizer] writes
    to the table only. *)
Theorem GetSanitizeByType_after_RegisterSanitizer
    (funcs funcs' : gmap string fieldSanFn) (sanType : iface) (function : fieldSanFn)
    (st st' : data) :
  RegisterSanitizer funcs sanType function st = Ret funcs' st' →
  st' = st
  ∧ GetSanitizeByType funcs' sanType st = Ret (inr function) st
  ∧ ∀ other : iface,
      GetSanitizeByType funcs' other st = Ret (inr function) st
      ∨ GetSanitizeByType funcs' other st = GetSanitizeByType funcs other st.
Proof.
  intros (v & t & -> & Hv & Ht & ->)%RegisterSanitizer_inv.
  split; [done |]. split.
  - rewrite (GetSanitizeByType_run _ _ _ _ _ Hv Ht). by rewrite lookup_insert_eq.
  - intros other.
    destruct (getValue other st) as [v2 st2|x] eqn:Hv2; cycle 1.
    { right. unfold GetSanitizeByType. cbv [mbind M_bind]. by rewrite Hv2. }
    pose proof Hv2 as [-> _]%reads_getValue_any.
    destruct (Value.Type_ v2 st) as [t2 st2|x] eqn:Ht2; cycle 1.
    { right. unfold GetSanitizeByType. cbv [mbind M_bind]. by rewrite Hv2, Ht2. }
    pose proof Ht2 as [-> _]%reads_Type.
    rewrite !(GetSanitizeByType_run _ _ _ _ _ Hv2 Ht2).
    destruct (decide (rtype.String t = rtype.String t2)) as [Heq | Hne].
    + left. by rewrite <- Heq, lookup_insert_eq.
    + right. by rewrite lookup_insert_ne.
Qed.

Lemma GetSanitizeByType_after_RegisterSanitizer_witness :
  RegisterSanitizer (∅ : gmap string fieldSanFn) (Some (TPtr demoItem, []))
    nilSanFn (DPtr (Some (DStruct [DInt 0])))
  = Ret (<["main.Item" := nilSanFn]> ∅) (DPtr (Some (DStruct [DInt 0])))
  ∧ GetSanitizeByType (<["main.Item" := nilSanFn]> ∅) (Some (demoItem, [SDeref]))
      (DPtr (Some (DStruct [DInt 0])))
    = Ret (inr nilSanFn) (DPtr (Some (DStruct [DInt 0]))).
Proof.
  split; [reflexivity |].
  destruct (GetSanitizeByType_after_RegisterSanitizer ∅ (<["main.Item" := nilSanFn]> ∅)
              (Some (TPtr demoItem, [])) nilSanFn
              (DPtr (Some (DStruct [DInt 0]))) (DPtr (Some (DStruct [DInt 0])))
              eq_refl) as (_ & _ & Hother).
  destruct (Hother (Some (demoItem, [SDeref]))) as [H | H]; [exact H |].
  reflexivity.
Defined.

(** X9.  [RegisterSanitizer] and [GetSanitizeByType] panic when the example
    is the nil interface or a nil pointer: [getValue] yields the zero
    [reflect.Value], whose [Type] method panics; the table is not
    changed. *)
Theorem table_functions_panic_on_nil_example
    (funcs : gmap string fieldSanFn) (sanType : iface) (function : fieldSanFn) (st : data) :
  sanType = None
  ∨ (∃ t p, sanType = Some (t, p) ∧ rtype.Kind t = reflect.Ptr
            ∧ lookupPath st p = Some (DPtr None)) →
  RegisterSanitizer funcs sanType function st
  = Fail (GoPanic "reflect: call of reflect.Value.Type on zero Value")
  ∧ GetSanitizeByType funcs sanType st
    = Fail (GoPanic "reflect: call of reflect.Value.Type on zero Value").
Proof.
  intros Hnil.
  assert (getValue sanType st = Ret ZeroValue st) as Hv.
  { destruct Hnil as [-> | (t & p & -> & Hk & Hl)]; [done |].
    unfold getValue, reflect_ValueOf, Value.Kind. rewrite Hk.
    rewrite bool_decide_eq_true_2 by done. cbn [orb].
    unfold Value.Elem. rewrite Hk. cbv [mbind M_bind]. by rewrite (load_run _ _ _ Hl). }
  unfold RegisterSanitizer, GetSanitizeByType. cbv [mbind M_bind]. by rewrite Hv.
Qed.

Lemma table_functions_panic_on_nil_example_witness :
  RegisterSanitizer (∅ : gmap string fieldSanFn) (Some (TPtr demoItem, [])) nilSanFn
    (DPtr None)
  = Fail (GoPanic "reflect: call of reflect.Value.Type on zero Value")
  ∧ GetSanitizeByType (∅ : gmap string fieldSanFn) (Some (TPtr demoItem, [])) (DPtr None)
    = Fail (GoPanic "reflect: call of reflect.Value.Type on zero Value").
Proof.
  apply (table_functions_panic_on_nil_example ∅ (Some (TPtr demoItem, [])) nilSanFn
           (DPtr None)).
  right. exists (TPtr demoItem), []. by split_and!.
Defined.

(** ** Structs within structs *)




Section struct_rounds.
Context {E : Externals}.
Variables (rec : Value → M error) (s : Sanitizer) (funcs : gmap string fieldSanFn).



End struct_rounds.

Section nested_int32.
Context {E : Externals} {PO : ParserOk E} (ver : accessor).
Variable s : Sanitizer.
Hypothesis Hlocal : SanitizersLocal E.

Let funcs : gmap string fieldSanFn := fieldSanFns ver.




End nested_int32.



(** ** The traversal stops at the first error *)



(** ** [SetField] *)

Lemma rtype_eqb_refl : ∀ t, rtype_eqb t t = true.
Proof.
  fix IH 1. intros [s k|s u|e|e|k e|s|s fs]; simpl.
  - by rewrite !bool_decide_eq_true_2.
  - by rewrite bool_decide_eq_true_2, IH.
  - apply IH.
  - apply IH.
  - by rewrite !IH.
  - by rewrite bool_decide_eq_true_2.
  - rewrite bool_decide_eq_true_2 by done. simpl.
    induction fs as [|f fs IHfs]; [done |].
    rewrite !bool_decide_eq_true_2 by done. rewrite IH, IHfs. done.
Qed.

Lemma rtype_eqb_pointer e : rtype_eqb (TPtr e) e = false.
Proof. induction e; simpl in *; try done. Qed.

(** [Set] on a settable view, with a value of the same type. *)
Lemma Value_Set_run t p pv a d st st' :
  lookupPath st pv = Some d →
  updatePath st p d = Some st' →
  Value_Set (Val t p true false) (Val t pv a false) st = Ret tt st'.
Proof.
  intros Hl Hu. unfold Value_Set. mrun. rewrite rtype_eqb_refl.
  mrun. rewrite (load_run _ _ _ Hl). by apply store_run.
Qed.

Lemma part_000_stores_pointer e p pv x d st :
  lookupPath st p = Some (DPtr (Some x)) →
  lookupPath st pv = Some d →
  ∃ st', SetField part_000 (Val (TPtr e) p true true) (Some (TPtr e, pv)) st = Ret tt st'
         ∧ lookupPath st' p = Some d.
Proof.
  intros Hp Hl. destruct (updatePath_defined st p d _ Hp) as [st' Hu].
  exists st'. split; [| by eapply updatePath_lookup].
  unfold SetField, reflect_ValueOf. cbv [Value.CanInterface mbind M_bind mret M_ret].
  cbn [negb]. by eapply Value_Set_run.
Qed.

(** X12.  [SetField] on an addressable field, exported or not, with a
    value of the type of the field: the field holds the value afterwards,
    and nothing else has changed.  With the variant of part_001 an
    unexported field of pointer kind is left out: there the variants
    differ. *)
Theorem SetField_stores_the_value
    (ver : accessor) (t : rtype) (p pv : path) (ro : bool) (d old : data) (st : data) :
  lookupPath st pv = Some d →
  lookupPath st p = Some old →
  ver = part_000 ∨ ro = false ∨ rtype.Kind t ≠ reflect.Ptr →
  ∃ st', SetField ver (Val t p true ro) (Some (t, pv)) st = Ret tt st'
         ∧ lookupPath st' p = Some d
         ∧ ∀ q, diverge p q → lookupPath st' q = lookupPath st q.
Proof.
  intros Hl Hp Hcase.
  destruct (updatePath_defined st p d old Hp) as [st' Hu].
  exists st'. split_and!.
  - unfold SetField, reflect_ValueOf. cbv [Value.CanInterface mbind M_bind mret M_ret].
    destruct ro; cbn [negb].
    + assert (GetUnexportedField ver (Val t p true true) st = Ret (Val t p true false) st)
        as ->; [| by eapply Value_Set_run].
      destruct Hcase as [-> | [? | Hk]]; [done | done |].
      destruct ver; [done |]. unfold GetUnexportedField, Part001.GetUnexportedField.
      simpl in *. by rewrite decide_False by done.
    + by eapply Value_Set_run.
  - by eapply updatePath_lookup.
  - exact (updatePath_frame _ _ _ _ Hu).
Qed.

Lemma SetField_stores_the_value_witness :
  ∃ st', SetField part_001 (Val tInt32 [SField 0; SField 0] true true)
           (Some (tInt32, [SField 1])) (DStruct [DStruct [DInt 3; DPtr None]; DInt 8])
         = Ret tt st'
         ∧ lookupPath st' [SField 0; SField 0] = Some (DInt 8)
         ∧ ∀ q, diverge [SField 0; SField 0] q →
                lookupPath st' q
                = lookupPath (DStruct [DStruct [DInt 3; DPtr None]; DInt 8]) q.
Proof.
  apply (SetField_stores_the_value part_001 tInt32 [SField 0; SField 0] [SField 1] true
           (DInt 8) (DInt 3) (DStruct [DStruct [DInt 3; DPtr None]; DInt 8])
           eq_refl eq_refl).
  right. right. discriminate.
Defined.

(** X13.  [SetField] on a field that is not addressable panics, with
    either variant of [GetUnexportedField], whatever the value: the field
    of a struct passed by value cannot be set. *)
Theorem SetField_panics_on_unaddressable_field
    (ver : accessor) (t : rtype) (p : path) (ro : bool) (value : iface) (st : data) :
  ∃ msg, SetField ver (Val t p false ro) value st = Fail (GoPanic msg).
Proof.
  unfold SetField. cbv [Value.CanInterface mbind M_bind mret M_ret].
  destruct ro; cbn [negb].
  - destruct ver; simpl; [by eexists |].
    unfold Value_Set. simpl. by eexists.
  - unfold Value_Set. simpl. by eexists.
Qed.

(** X14.  The variants of [SetField] differ on an unexported field that
    holds a non-nil pointer.  Given a pointer of the type of the field,
    the variant of part_000 stores it in the field.  The variant of
    part_001 panics: its [GetUnexportedField] has followed the pointer, and
    [Set] refuses a pointer for the pointee. *)
Theorem SetField_variants_differ_on_pointer
    (e : rtype) (p pv : path) (x d : data) (st : data) :
  rtype.Kind e ≠ reflect.Ptr → rtype.Kind e ≠ reflect.Interface →
  lookupPath st p = Some (DPtr (Some x)) →
  lookupPath st pv = Some d →
  (∃ st', SetField part_000 (Val (TPtr e) p true true) (Some (TPtr e, pv)) st = Ret tt st'
          ∧ lookupPath st' p = Some d)
  ∧ SetField part_001 (Val (TPtr e) p true true) (Some (TPtr e, pv)) st
    = Fail (GoPanic "reflect.Set: value is not assignable to the type").
Proof.
  intros Hptr Hiface Hp Hl. split.
  - destruct (part_000_stores_pointer e p pv x d st Hp Hl) as (st' & H1 & H2). eauto.
  - unfold SetField, reflect_ValueOf, GetUnexportedField, Part001.GetUnexportedField.
    repeat first [ progress mrun | rewrite (load_run _ _ _ Hp) ].
    unfold Value_Set. mrun.
    pose proof (rtype_eqb_pointer e) as Hneq. cbn [rtype_eqb] in Hneq. by rewrite Hneq.
Qed.

Lemma SetField_variants_differ_on_pointer_witness :
  (∃ st', SetField part_000 (Val (TPtr tInt32) [SField 0; SField 1] true true)
            (Some (TPtr tInt32, [SField 1]))
            (DStruct [DStruct [DInt 3; DPtr (Some (DInt 4))]; DPtr (Some (DInt 8))])
          = Ret tt st'
          ∧ lookupPath st' [SField 0; SField 1] = Some (DPtr (Some (DInt 8))))
  ∧ SetField part_001 (Val (TPtr tInt32) [SField 0; SField 1] true true)
      (Some (TPtr tInt32, [SField 1]))
      (DStruct [DStruct [DInt 3; DPtr (Some (DInt 4))]; DPtr (Some (DInt 8))])
    = Fail (GoPanic "reflect.Set: value is not assignable to the type").
Proof.
  apply (SetField_variants_differ_on_pointer tInt32 [SField 0; SField 1] [SField 1]
           (DInt 4) (DPtr (Some (DInt 8)))
           (DStruct [DStruct [DInt 3; DPtr (Some (DInt 4))]; DPtr (Some (DInt 8))]));
    [discriminate | discriminate | reflexivity | reflexivity].
Defined.

(** ** The errors of the elements of a slice given to [Sanitize] *)

Lemma iterable_loop_app (San : iface → M error) (elemAt : nat → M Value) err l1 l2 st :
  iterable_loop San elemAt err (l1 ++ l2) st =
  match iterable_loop San elemAt err l1 st with
  | Ret err' st1 => iterable_loop San elemAt err' l2 st1
  | Fail f => Fail f
  end.
Proof.
  revert err st. induction l1 as [|k l1 IH]; intros err st; simpl; [done |].
  cbv [mbind M_bind]. destruct (iterable_step San elemAt err k st) as [err' st1|]; [| done].
  apply IH.
Qed.

(** X15.  [iterable] calls [iErr.Error()] on the result of every element
    that comes after a failed one.  When [Sanitize] is given a slice, the
    elements before the element [i] have left an error, and the element
    [i] is sanitized without error, [Sanitize] does not return: it panics
    on the nil [iErr]. *)
Theorem Sanitize_panics_when_success_follows_error
    {E : Externals} (funcs : gmap string fieldSanFn) (fuel : nat) (s : Sanitizer)
    (t et : rtype) (p0 : path) (i : nat) (ds ds1 : list data) (e0 : err)
    (st st1 st2 : data) :
  rtype.Kind t = reflect.Slice → rtype.Elem t = Some et →
  rtype.Kind et ≠ reflect.Interface →
  lookupPath st p0 = Some (DSlice ds) → i < length ds →
  iterable_loop (Sanitize fuel funcs s) (Value.Index (Val t p0 false false)) None
    (seq 0 i) st = Ret (Some e0) st1 →
  lookupPath st1 p0 = Some (DSlice ds1) → i < length ds1 →
  Sanitize fuel funcs s (Some (et, p0 ++ [SIndex i])) st1 = Ret None st2 →
  Sanitize (S fuel) funcs s (Some (t, p0)) st
  = Fail (GoPanic "runtime error: invalid memory address or nil pointer dereference").
Proof.
  intros Ht He Het Hl Hi H1 Hl1 Hi1 H2.
  rewrite Sanitize_unfold. unfold iterable, getValue, reflect_ValueOf.
  cbv [Value.Kind]. rewrite Ht.
  rewrite !bool_decide_eq_false_2 by done. cbn [orb].
  cbv [mbind M_bind mret M_ret]. rewrite decide_True by done.
  unfold Value.Len. rewrite Ht. cbv [mbind M_bind mret M_ret].
  rewrite (load_run _ _ _ Hl). rewrite decide_True by lia.
  replace (length ds) with (i + S (length ds - S i)) by lia.
  rewrite seq_app, iterable_loop_app, H1. cbn [seq iterable_loop Nat.add].
  unfold iterable_step at 1. unfold Value.Index, Value.Interface. rewrite Ht.
  cbv [mbind M_bind mret M_ret]. rewrite (load_run _ _ _ Hl1), He.
  rewrite decide_True by done. rewrite decide_False by done. cbv beta iota. unfold path in *. by rewrite H2.
Qed.

Lemma Sanitize_panics_when_success_follows_error_witness :
  demoSanitize part_001 4 (Some (TSlice (TPtr demoGate), []))
    (DSlice [DPtr (Some (DStruct [DInt 3; DInt 0])); DPtr None])
  = Fail (GoPanic "runtime error: invalid memory address or nil pointer dereference").
Proof.
  apply (@Sanitize_panics_when_success_follows_error SpecExternals.externals
           (@fieldSanFns SpecExternals.externals part_001) 3 demoSanitizer
           (TSlice (TPtr demoGate)) (TPtr demoGate) [] 1
           [DPtr (Some (DStruct [DInt 3; DInt 0])); DPtr None]
           [DPtr (Some (DStruct [DInt 3; DInt 0])); DPtr None]
           (ErrMaxLessThanMin tInt32)
           (DSlice [DPtr (Some (DStruct [DInt 3; DInt 0])); DPtr None])
           (DSlice [DPtr (Some (DStruct [DInt 3; DInt 0])); DPtr None])
           (DSlice [DPtr (Some (DStruct [DInt 3; DInt 0])); DPtr None])
           eq_refl eq_refl ltac:(discriminate) eq_refl ltac:(simpl; lia)
           ltac:(vm_compute; reflexivity) eq_refl ltac:(simpl; lia)
           ltac:(vm_compute; reflexivity)).
Defined.

(** ** A slice of pointers to structs given to [Sanitize] *)

Section root_slice.
Context {E : Externals}.
Variables (San : iface → M error) (t et : rtype) (p0 : path).
Hypothesis Ht : rtype.Kind t = reflect.Slice.
Hypothesis He : rtype.Elem t = Some et.
Hypothesis Het : rtype.Kind et ≠ reflect.Interface.

Let v : Value := Val t p0 false false.






End root_slice.




(** ** A field that is a map of pointers to structs *)


Section map_rounds.
Context {E : Externals}.
Variables (rec : Value → M error) (s : Sanitizer) (funcs : gmap string fieldSanFn).



Hypothesis Hrec : ∀ w q, under q w → spec q (rec w) (λ _, True).


End map_rounds.



(** ** Fields of a defined type: the fallback of [getFieldFunc] *)

Section fallback.
Context {E : Externals}.
Variables (rec : Value → M error) (s : Sanitizer).
Variables (funcs : gmap string fieldSanFn) (f : fieldSanFn).

Lemma body_text_gen T p a ro i sf str k st :
  funcs !! "string" = Some f →
  rtype.Kind T = reflect.Struct →
  rtype.Field T i = Some sf →
  sfType sf = TPrim str k → textKind k = true →
  funcs !! str = None →
  sanitizeRec_body rec funcs s (Val T p a ro) i st = f s (Val T p a ro) i st.
Proof.
  intros Hfn HT Hf Hty Hk Hnone. unfold sanitizeRec_body, Value.Field.
  rewrite decide_True by done. rewrite Hf, Hty.
  unfold sanitizeRec_dispatch, getFieldFunc, isPtrTo, canConvertToString,
    canConvertToTypeOfType.
  destruct k; try discriminate Hk; mrun; rewrite Hnone; mrun; rewrite Hfn; mrun;
    by destruct (f s (Val T p a ro) i st) as [[e|] st'|].
Qed.

End fallback.

Lemma fieldSanFns_string {E : Externals} ver :
  fieldSanFns ver !! "string" = Some sanitizeStrField.
Proof. reflexivity. Qed.

(** X18.  A field whose type is a defined type over an integer type or
    over [string], such as [type Age int32], is not in the table under its
    own name: [getFieldFunc] falls back on the entry for [string], and the
    round of [sanitizeRec] for the field is the call of [sanitizeStrField],
    whatever the kind of the field; [sanitizeInt32Field] is not called. *)
Theorem defined_type_field_goes_to_sanitizeStrField
    {E : Externals} (ver : accessor) (rec : Value → M error) (s : Sanitizer)
    (T : rtype) (p : path) (a ro : bool) (i : nat) (sf : StructField rtype)
    (str : string) (k : reflect.Kind) (st : data) :
  rtype.Kind T = reflect.Struct →
  rtype.Field T i = Some sf →
  sfType sf = TPrim str k → textKind k = true →
  fieldSanFns ver !! str = None →
  sanitizeRec_body rec (fieldSanFns ver) s (Val T p a ro) i st
  = sanitizeStrField s (Val T p a ro) i st.
Proof. intros. by eapply body_text_gen; [apply fieldSanFns_string | ..]. Qed.

Lemma defined_type_field_goes_to_sanitizeStrField_witness :
  @sanitizeRec_body SpecExternals.externals (λ _, mret None)
    (@fieldSanFns SpecExternals.externals part_001) demoSanitizer
    (Val demoPerson [SDeref] true false) 0 (DPtr (Some (DStruct [DInt 0])))
  = @sanitizeStrField SpecExternals.externals demoSanitizer
      (Val demoPerson [SDeref] true false) 0 (DPtr (Some (DStruct [DInt 0]))).
Proof.
  apply (@defined_type_field_goes_to_sanitizeStrField SpecExternals.externals part_001
           (λ _, mret None) demoSanitizer demoPerson [SDeref] true false 0
           (mkStructField "Age" (TPrim "main.Age" reflect.Int32) [("san", "min=1")] true)
           "main.Age" reflect.Int32 (DPtr (Some (DStruct [DInt 0])))
           eq_refl eq_refl eq_refl eq_refl ltac:(reflexivity)).
Defined.

(** ** A sanitizer registered for a struct type *)

(** X19.  A sanitizer registered with [RegisterSanitizer] under a struct
    type is found by [getFieldFunc] for the fields of that type: the round
    of [sanitizeRec] for such a field calls the registered function on the
    field, returns its error if there is one, and otherwise goes on to
    sanitize the fields of the struct held by the field. *)
Theorem registered_struct_sanitizer_runs_before_recursion
    {E : Externals} (rec : Value → M error) (s : Sanitizer)
    (funcs funcs' : gmap string fieldSanFn) (function : fieldSanFn)
    (U T : rtype) (pu p : path) (a ro : bool) (i : nat) (sf : StructField rtype)
    (mem mem' st : data) :
  rtype.Kind U = reflect.Struct →
  RegisterSanitizer funcs (Some (U, pu)) function mem = Ret funcs' mem' →
  rtype.Kind T = reflect.Struct →
  rtype.Field T i = Some sf →
  sfType sf = U →
  sanitizeRec_body rec funcs' s (Val T p a ro) i st
  = match function s (Val T p a ro) i st with
    | Ret None st1 => rec (Val U (p ++ [SField i]) a (ro || negb (sfExported sf))) st1
    | r => r
    end.
Proof.
  intros HU Hreg HT Hf Hty.
  apply RegisterSanitizer_inv in Hreg as (v & t & _ & Hv & Ht & ->).
  assert (t = U) as ->.
  { unfold getValue, reflect_ValueOf in Hv. cbv [Value.Kind] in Hv. rewrite HU in Hv.
    rewrite !bool_decide_eq_false_2 in Hv by done. cbn [orb] in Hv.
    apply ret_inv in Hv as [-> _]. by apply ret_inv in Ht as [-> _]. }
  unfold sanitizeRec_body, Value.Field.
  rewrite decide_True by done. rewrite Hf, Hty.
  unfold sanitizeRec_dispatch, getFieldFunc, isPtrTo.
  cbv [mbind M_bind mret M_ret Value.Kind Value.Type_]. rewrite HU.
  rewrite !decide_False by done. rewrite !bool_decide_eq_false_2 by done.
  rewrite lookup_insert_eq. cbn [orb].
  destruct (function s (Val T p a ro) i st) as [[e|] st1|]; [done | | done].
  by rewrite bool_decide_eq_true_2.
Qed.

Lemma registered_struct_sanitizer_runs_before_recursion_witness :
  @sanitizeRec_body SpecExternals.externals
    (@sanitizeRec SpecExternals.externals 1
       (<["main.Item" := SpecExternals.inert]>
          (@fieldSanFns SpecExternals.externals part_001)) demoSanitizer)
    (<["main.Item" := SpecExternals.inert]> (@fieldSanFns SpecExternals.externals part_001))
    demoSanitizer (Val demoCrate [SDeref] true false) 0
    (DPtr (Some (DStruct [DStruct [DInt 0]; DPtr None])))
  = match SpecExternals.inert demoSanitizer (Val demoCrate [SDeref] true false) 0
            (DPtr (Some (DStruct [DStruct [DInt 0]; DPtr None]))) with
    | Ret None st1 =>
        @sanitizeRec SpecExternals.externals 1
          (<["main.Item" := SpecExternals.inert]>
             (@fieldSanFns SpecExternals.externals part_001)) demoSanitizer
          (Val demoItem ([SDeref] ++ [SField 0]) true (false || negb true)) st1
    | r => r
    end.
Proof.
  apply (@registered_struct_sanitizer_runs_before_recursion SpecExternals.externals
           (@sanitizeRec SpecExternals.externals 1
              (<["main.Item" := SpecExternals.inert]>
                 (@fieldSanFns SpecExternals.externals part_001)) demoSanitizer)
           demoSanitizer (@fieldSanFns SpecExternals.externals part_001)
           (<["main.Item" := SpecExternals.inert]>
              (@fieldSanFns SpecExternals.externals part_001))
           SpecExternals.inert
           demoItem demoCrate [] [SDeref] true false 0
           (mkStructField "Top" demoItem [] true)
           (DStruct [DInt 0]) (DStruct [DInt 0])
           (DPtr (Some (DStruct [DStruct [DInt 0]; DPtr None])))
           eq_refl eq_refl eq_refl eq_refl eq_refl).
Defined.
